(** * Parking-lot feature engineering ([data_processing/lot_engineering.py])

    A shallow embedding of the feature pipeline: the merge of the lot and
    boundary tables, the geometric ratios, the Gini coefficient of the lot
    areas and the orientation entropy, with the properties the
    specification states about them.

    Numbers.  The program computes in [numpy.float64].  Values are modelled
    here as exact rationals extended with the IEEE special values
    [+inf], [-inf] and [NaN]: arithmetic on finite values is exact (no
    rounding, no overflow, one unsigned zero), and the special values follow
    the IEEE rules numpy applies (division by zero yields an infinity or
    [NaN], [NaN] is absorbing and compares unequal to everything).

    Where a property depends on rounding, the function is given once more
    with every operation rounded to binary64 ([round_b64],
    [gini_coefficient_b64], [get_orientation_b64]): the result of an
    operation is the exact result rounded to the nearest binary64 number,
    ties to even, with overflow to an infinity. *)

From Stdlib Require Import QArith Qcanon Qround ZArith Lia Lqa.
From stdpp Require Import gmap strings list fin_maps numbers sorting.

Open Scope Z_scope.

(** ** float64 *)

Inductive float64 : Type :=
  | Fin (q : Qc)
  | PInf
  | NInf
  | NaN.

Declare Scope f64_scope.
Delimit Scope f64_scope with f64.
Bind Scope f64_scope with float64.

Global Instance float64_eq_dec : EqDecision float64.
Proof. solve_decision. Defined.

Definition f_zero : float64 := Fin 0%Qc.
Definition f_one : float64 := Fin 1%Qc.

(** An int64 (or a Python int) used where a float is expected. *)
Definition f_of_int (z : Z) : float64 := Fin (Qc_of_Z z).

(** [numpy.isfinite] *)
Definition is_finite (a : float64) : bool :=
  match a with Fin _ => true | _ => false end.

(** [numpy.isnan] *)
Definition is_nan (a : float64) : bool :=
  match a with NaN => true | _ => false end.

(** The product of an infinity ([+inf] if [pos], else [-inf]) and the finite
    value [q]; [inf * 0] is [NaN]. *)
Definition inf_signed (pos : bool) (q : Qc) : float64 :=
  match (q ?= 0)%Qc with
  | Gt => if pos then PInf else NInf
  | Lt => if pos then NInf else PInf
  | Eq => NaN
  end.

Definition f_add (a b : float64) : float64 :=
  match a, b with
  | NaN, _ | _, NaN => NaN
  | Fin x, Fin y => Fin (x + y)%Qc
  | PInf, NInf | NInf, PInf => NaN
  | PInf, _ | _, PInf => PInf
  | NInf, _ | _, NInf => NInf
  end.

Definition f_neg (a : float64) : float64 :=
  match a with
  | Fin x => Fin (- x)%Qc
  | PInf => NInf
  | NInf => PInf
  | NaN => NaN
  end.

Definition f_sub (a b : float64) : float64 := f_add a (f_neg b).

Definition f_mul (a b : float64) : float64 :=
  match a, b with
  | NaN, _ | _, NaN => NaN
  | Fin x, Fin y => Fin (x * y)%Qc
  | Fin x, PInf | PInf, Fin x => inf_signed true x
  | Fin x, NInf | NInf, Fin x => inf_signed false x
  | PInf, PInf | NInf, NInf => PInf
  | PInf, NInf | NInf, PInf => NInf
  end.

(** numpy division: no exception on a zero divisor. A finite nonzero value
    over zero is an infinity, zero over zero is [NaN]. *)
Definition f_div (a b : float64) : float64 :=
  match a, b with
  | NaN, _ | _, NaN => NaN
  | Fin x, Fin y =>
      if decide (y = 0%Qc) then inf_signed true x else Fin (x / y)%Qc
  | Fin _, (PInf | NInf) => Fin 0%Qc
  | PInf, Fin y => if decide (y < 0)%Qc then NInf else PInf
  | NInf, Fin y => if decide (y < 0)%Qc then PInf else NInf
  | (PInf | NInf), (PInf | NInf) => NaN
  end.

(** [a == b] on floats: [NaN] equals nothing, itself included. *)
Definition f_eqb (a b : float64) : bool :=
  match a, b with
  | NaN, _ | _, NaN => false
  | _, _ => bool_decide (a = b)
  end.

Infix "+" := f_add : f64_scope.
Infix "-" := f_sub : f64_scope.
Infix "*" := f_mul : f64_scope.
Infix "/" := f_div : f64_scope.

(** The order [numpy.sort] sorts by: the usual order on the extended line,
    with every [NaN] after everything else. *)
Definition f_le (a b : float64) : Prop :=
  match a, b with
  | _, NaN => True
  | NaN, _ => False
  | NInf, _ => True
  | _, NInf => False
  | _, PInf => True
  | PInf, _ => False
  | Fin x, Fin y => (x <= y)%Qc
  end.

Global Instance f_le_dec : RelDecision f_le.
Proof. intros [x | | |] [y | | |]; simpl; apply _. Defined.

(** [a < b] on floats ([False] when either is [NaN]). *)
Definition f_ltb (a b : float64) : bool :=
  bool_decide (f_le a b) && negb (bool_decide (a = b)) && negb (is_nan b).

(** [a % b] on floats, with the sign of the divisor as in Python and numpy. *)
Definition f_mod (a b : float64) : float64 :=
  match a, b with
  | Fin x, Fin y =>
      if decide (y = 0%Qc) then NaN
      else Fin (x - y * Qc_of_Z (Qfloor (x / y)%Qc))%Qc
  | Fin x, PInf => if decide (0 <= x)%Qc then a else PInf
  | Fin x, NInf => if decide (x <= 0)%Qc then a else NInf
  | _, _ => NaN
  end.

(** ** The numpy functions the program calls *)

(** [numpy.sum] of a one-dimensional array. *)
Definition np_sum (x : list float64) : float64 := foldr f_add f_zero x.

(** [numpy.sort]: ascending, [NaN] last. *)
Definition np_sort (x : list float64) : list float64 := merge_sort f_le x.

(** [numpy.arange(a, b)] on integers. *)
Definition np_arange (a b : Z) : list Z :=
  (fun k => a + Z.of_nat k) <$> seq 0 (Z.to_nat (b - a)).

(** [numpy.mean]: the sum over the number of elements ([NaN] when empty). *)
Definition np_mean (x : list float64) : float64 :=
  (np_sum x / f_of_int (Z.of_nat (length x)))%f64.

(** ** [gini_coefficient] *)

Definition gini_coefficient (x : list float64) : float64 :=
  if bool_decide (length x <= 1)%nat || f_eqb (np_sum x) f_zero then f_zero
  else
    let x := np_sort x in
    let n := Z.of_nat (length x) in
    let index := np_arange 1 (n + 1) in
    let weights := (fun i => f_of_int (2 * i - n - 1)) <$> index in
    (np_sum (zip_with f_mul weights x) / (f_of_int n * np_sum x))%f64.

(** The formula as the specification words it: the elements in ascending
    order, each with its 1-based rank. *)
Fixpoint rank_weighted_sum (n rank : Z) (sorted : list float64) : float64 :=
  match sorted with
  | [] => f_zero
  | v :: rest =>
      (f_of_int (2 * rank - n - 1) * v + rank_weighted_sum n (rank + 1) rest)%f64
  end.

(** The same sums on rationals, for inputs that are all finite. *)

Definition Qc_sum (l : list Qc) : Qc := foldr Qcplus 0%Qc l.

Fixpoint Qc_rank_sum (n rank : Z) (l : list Qc) : Qc :=
  match l with
  | [] => 0%Qc
  | v :: rest => (Qc_of_Z (2 * rank - n - 1) * v + Qc_rank_sum n (rank + 1) rest)%Qc
  end.

(** ** Tables

    A row of the merged table [lot_data]. The columns the merge produces are
    fields; the columns assigned afterwards ([lot_data["name"] = ...]) live
    in [features], keyed by column name.  A data frame is a mutable object:
    frames live in a heap and the program passes references to them. *)

Section Pipeline.

(** shapely and numpy, as far as the program uses them. *)
Variable polygon : Type.
(** [poly.area], in the coordinate system the polygon is expressed in. *)
Variable area : polygon -> float64.
(** [to_crs(epsg=5070)] on one polygon. *)
Variable to_crs : polygon -> polygon.
(** [poly.minimum_rotated_rectangle.exterior.coords.xy]; [None] when the
    rectangle degenerates to a geometry without an exterior ring. *)
Variable mbr_exterior_xy : polygon -> option (list float64 * list float64).
Variable arctan2 : float64 -> float64 -> float64.
Variable degrees : float64 -> float64.
(** [numpy.log] *)
Variable log : float64 -> float64.

Inductive geometry : Type :=
  | Polygon (p : polygon)
  | MultiPolygon (geoms : list polygon).

(** [hasattr(geom, 'geoms')] *)
Definition has_geoms (g : geometry) : bool :=
  match g with MultiPolygon _ => true | Polygon _ => false end.

(** [geom.area]: a multi-polygon has the sum of the areas of its parts. *)
Definition geom_area (g : geometry) : float64 :=
  match g with
  | Polygon p => area p
  | MultiPolygon ps => np_sum (area <$> ps)
  end.

Definition geom_to_crs (g : geometry) : geometry :=
  match g with
  | Polygon p => Polygon (to_crs p)
  | MultiPolygon ps => MultiPolygon (to_crs <$> ps)
  end.

(** A feature of [city_lots.geojson] and of [city_boundaries.geojson]. *)
Record lot_feature := LotFeature {
  lot_id : string;
  lot_geometry : geometry;
}.

Record boundary_feature := BoundaryFeature {
  boundary_id : string;
  boundary_geometry : geometry;
}.

Record row := Row {
  city : string;
  geometry_col : geometry;
  total_lot_area : float64;
  num_lots : Z;
  boundary_area : float64;
  features : gmap string float64;
}.

Definition set_feature (name : string) (v : float64) (r : row) : row :=
  Row (city r) (geometry_col r) (total_lot_area r) (num_lots r)
      (boundary_area r) (<[name := v]> (features r)).

(** *** The heap of data frames *)

Abbreviation heap := (gmap nat (list row)).

(** A computation on the heap that may raise. *)
Definition M (A : Type) : Type := heap -> option (A * heap).

Definition ret {A} (a : A) : M A := fun h => Some (a, h).
Definition bind {A B} (m : M A) (k : A -> M B) : M B :=
  fun h => match m h with Some (a, h') => k a h' | None => None end.
Definition raise {A} : M A := fun _ => None.

Notation "x <- m ;; k" := (bind m (fun x => k))
  (at level 100, m at next level, right associativity).
Notation "m ;;; k" := (bind m (fun _ => k))
  (at level 100, right associativity).

Definition new_frame (rows : list row) : M nat :=
  fun h => let l := fresh (dom h) in Some (l, <[l := rows]> h).

Definition read_frame (l : nat) : M (list row) :=
  fun h => match h !! l with Some rows => Some (rows, h) | None => None end.

(** [frame[name] = values]: the column is added to (or replaced in) the
    frame itself; a list of the wrong length raises. *)
Definition set_column (l : nat) (name : string) (values : list float64)
  : M unit :=
  fun h =>
    match h !! l with
    | Some rows =>
        if decide (length values = length rows)
        then Some (tt, <[l := zip_with (set_feature name) values rows]> h)
        else None
    | None => None
    end.

(** *** [load_lot_data] *)

(** [lots.merge(boundaries.drop(columns='geometry'), on='id', how='left')]
    followed by the renaming of [id] to [city]: one output row per lot row
    and matching boundary row, in the order of the lot rows; a lot row
    without a match is kept once, with [NaN] in the boundary columns. *)
Definition merge_left (lots : list (lot_feature * float64 * Z))
    (boundaries : list (boundary_feature * float64)) : list row :=
  '(l, total, n) ← lots;
  let matches :=
    filter (fun b => boundary_id b.1 = lot_id l) boundaries in
  match matches with
  | [] => [Row (lot_id l) (lot_geometry l) total n NaN ∅]
  | _ => (fun b => Row (lot_id l) (lot_geometry l) total n b.2 ∅) <$> matches
  end.

Definition lot_to_crs (l : lot_feature) : lot_feature :=
  LotFeature (lot_id l) (geom_to_crs (lot_geometry l)).

Definition boundary_to_crs (b : boundary_feature) : boundary_feature :=
  BoundaryFeature (boundary_id b) (geom_to_crs (boundary_geometry b)).

(** [len(x.geoms) if x.geom_type == "MultiPolygon" else 1] *)
Definition count_lots (g : geometry) : Z :=
  match g with
  | MultiPolygon ps => Z.of_nat (length ps)
  | Polygon _ => 1
  end.

(** The table [load_lot_data] builds from the two files. *)
Definition lot_table (lots : list lot_feature)
    (boundaries : list boundary_feature) : list row :=
  let lots := lot_to_crs <$> lots in
  let boundaries := boundary_to_crs <$> boundaries in
  let lots :=
    (fun l => (l, geom_area (lot_geometry l), count_lots (lot_geometry l)))
      <$> lots in
  let boundaries :=
    (fun b => (b, geom_area (boundary_geometry b))) <$> boundaries in
  merge_left lots boundaries.

(** The arguments are the contents of the two files, [None] for a file
    that cannot be read ([DataSourceError]); in that case the function
    prints a message and returns Python's [None]. *)
Definition load_lot_data (lots_file : option (list lot_feature))
    (boundaries_file : option (list boundary_feature)) : M (option nat) :=
  match lots_file, boundaries_file with
  | Some lots, Some boundaries =>
      lot_data <- new_frame (lot_table lots boundaries);;
      ret (Some lot_data)
  | _, _ => ret None
  end.

(** *** [add_geo_features] *)

(** [np.mean([poly.area for poly in geom.geoms]) if hasattr(geom, 'geoms')
    else geom.area] *)
Definition mean_lot_area (g : geometry) : float64 :=
  match g with
  | MultiPolygon ps => np_mean (area <$> ps)
  | Polygon p => area p
  end.

Definition add_geo_features (lot_data : nat) : M nat :=
  rows <- read_frame lot_data;;
  set_column lot_data "pct_lot_area"
    ((fun r => total_lot_area r / boundary_area r)%f64 <$> rows);;;
  rows <- read_frame lot_data;;
  set_column lot_data "lots_per_sq_km"
    ((fun r => f_of_int (1000 * num_lots r) / boundary_area r)%f64 <$> rows);;;
  rows <- read_frame lot_data;;
  set_column lot_data "avg_lot_area"
    ((fun r => mean_lot_area (geometry_col r) / f_of_int 1000)%f64 <$> rows);;;
  ret lot_data.

(** *** [get_orientation] and [calculate_orientation_entropy] *)

Definition get_orientation (poly : polygon) : option float64 :=
  '(x, y) ← mbr_exterior_xy poly;
  y1 ← y !! 1%nat; y0 ← y !! 0%nat;
  x1 ← x !! 1%nat; x0 ← x !! 0%nat;
  let edge_angle := arctan2 (y1 - y0)%f64 (x1 - x0)%f64 in
  Some (f_mod (degrees edge_angle) (f_of_int 90)).

(** The bin of [numpy.histogram(_, bins=bins, range=(0, 90))] a value
    falls in: equal-width bins, the last one closed on the right; values
    outside the range (and [NaN]) fall in no bin. *)
Definition bin_index (bins : Z) (a : float64) : option Z :=
  match a with
  | Fin x =>
      if bool_decide (0 <= x)%Qc && bool_decide (x <= Qc_of_Z 90)%Qc then
        if decide (x = Qc_of_Z 90) then Some (bins - 1)
        else Some (Qfloor (x * Qc_of_Z bins / Qc_of_Z 90)%Qc)
      else None
  | _ => None
  end.

(** The counts of [numpy.histogram]; a bin count that is not positive
    raises. *)
Definition np_histogram (a : list float64) (bins : Z) : option (list Z) :=
  if decide (0 < bins) then
    Some ((fun k =>
             Z.of_nat (length (filter (fun v => bin_index bins v = Some k) a)))
            <$> np_arange 0 bins)
  else None.

(** [scipy.special.entr] *)
Definition entr (x : float64) : float64 :=
  if is_nan x then NaN
  else if f_ltb f_zero x then f_neg (x * log x)
  else if f_eqb x f_zero then f_zero
  else NInf.

(** [scipy.stats.entropy] of unnormalised counts: the counts are divided
    by their sum, then the entries [entr] are summed. *)
Definition entropy (pk : list Z) : float64 :=
  let total := foldr Z.add 0 pk in
  let pk := (fun c => f_of_int c / f_of_int total)%f64 <$> pk in
  np_sum (entr <$> pk).

Definition calculate_orientation_entropy (geoms : list polygon) (bins : Z)
  : option float64 :=
  if bool_decide (length geoms <= 1)%nat then Some f_zero
  else
    angles ← mapM get_orientation geoms;
    hist ← np_histogram angles bins;
    Some (entropy hist / log (f_of_int bins))%f64.

(** *** [main] *)

Definition gini_of_geometry (geom : geometry) : float64 :=
  match geom with
  | MultiPolygon ps => gini_coefficient (area <$> ps)
  | Polygon _ => f_zero
  end.

Definition entropy_of_geometry (geom : geometry) : option float64 :=
  match geom with
  | MultiPolygon ps => calculate_orientation_entropy ps 36
  | Polygon _ => Some f_zero
  end.

Definition lift_option {A} (o : option A) : M A :=
  match o with Some a => ret a | None => raise end.

(** The result is the table handed to [to_file]. *)
Definition main (lots_file : option (list lot_feature))
    (boundaries_file : option (list boundary_feature)) : M (list row) :=
  initial_lots <- load_lot_data lots_file boundaries_file;;
  initial_lots <- lift_option initial_lots;;
  lot_data <- add_geo_features initial_lots;;
  rows <- read_frame lot_data;;
  set_column lot_data "gini_coef"
    ((fun r => gini_of_geometry (geometry_col r)) <$> rows);;;
  rows <- read_frame lot_data;;
  entropies <- lift_option
    (mapM (fun r => entropy_of_geometry (geometry_col r)) rows);;
  set_column lot_data "orientation_entropy" entropies;;;
  read_frame lot_data.

End Pipeline.

Abbreviation heap polygon := (gmap nat (list (row polygon))).

Arguments Polygon {polygon} p.
Arguments MultiPolygon {polygon} geoms.
Arguments LotFeature {polygon} lot_id lot_geometry.
Arguments lot_id {polygon} l.
Arguments lot_geometry {polygon} l.
Arguments BoundaryFeature {polygon} boundary_id boundary_geometry.
Arguments boundary_id {polygon} b.
Arguments boundary_geometry {polygon} b.
Arguments Row {polygon} city geometry_col total_lot_area num_lots
  boundary_area features.
Arguments city {polygon} r.
Arguments geometry_col {polygon} r.
Arguments total_lot_area {polygon} r.
Arguments num_lots {polygon} r.
Arguments boundary_area {polygon} r.
Arguments features {polygon} r.
Arguments set_feature {polygon} name v r.
Arguments has_geoms {polygon} g.
Arguments count_lots {polygon} g.
Arguments merge_left {polygon} lots boundaries.
Arguments ret {polygon A} a.
Arguments bind {polygon A B} m k.
Arguments raise {polygon A}.
Arguments new_frame {polygon} rows.
Arguments read_frame {polygon} l.
Arguments set_column {polygon} l name values.
Arguments lift_option {polygon A} o.

(** ** The column assignments, row by row

    The program assigns whole columns; read row-wise, each assignment sets
    one entry of [features] from the fields of the same row. *)

Section Rows.
Context {polygon : Type} (area : polygon -> float64).

(** The decomposition of a lot geometry into its constituent polygons: a
    single polygon is a one-element decomposition. *)
Definition constituent_polygons (g : geometry polygon) : list polygon :=
  match g with
  | Polygon p => [p]
  | MultiPolygon ps => ps
  end.

(** What [add_geo_features] does to one row. *)
Definition add_geo_row (r : row polygon) : row polygon :=
  set_feature "avg_lot_area"
    (mean_lot_area polygon area (geometry_col r) / f_of_int 1000)%f64
    (set_feature "lots_per_sq_km"
       (f_of_int (1000 * num_lots r) / boundary_area r)%f64
       (set_feature "pct_lot_area"
          (total_lot_area r / boundary_area r)%f64 r)).

Definition gini_row (r : row polygon) : row polygon :=
  set_feature "gini_coef" (gini_of_geometry polygon area (geometry_col r)) r.

(** The table [main] writes, from the merged table and the orientation
    entropies of its rows. *)
Definition main_rows (rows : list (row polygon)) (entropies : list float64)
  : list (row polygon) :=
  zip_with (set_feature "orientation_entropy") entropies
    (gini_row <$> (add_geo_row <$> rows)).
End Rows.

(** ** A concrete instance: axis-parallel rectangles

    Rectangles with integer corners and sides, already in the planar
    coordinate system. Their minimum rotated rectangle is the rectangle
    itself, traversed from the lower left corner along the lower side. *)

Record rectangle := Rectangle {
  rect_x : Z;
  rect_y : Z;
  rect_width : Z;
  rect_height : Z;
}.

Definition rect_area (r : rectangle) : float64 :=
  f_of_int (rect_width r * rect_height r).

Definition rect_mbr (r : rectangle) : option (list float64 * list float64) :=
  let x0 := rect_x r in
  let y0 := rect_y r in
  let x1 := x0 + rect_width r in
  let y1 := y0 + rect_height r in
  Some (f_of_int <$> [x0; x1; x1; x0; x0], f_of_int <$> [y0; y0; y1; y1; y0]).

(** Stand-ins for the transcendental functions, exact where the examples
    need them: the angle of an edge along the x axis is 0, and the
    logarithm of 1 is 0. *)
Definition rect_arctan2 (y x : float64) : float64 :=
  if f_eqb y f_zero then f_zero else NaN.

Definition rect_log (x : float64) : float64 := (x - f_one)%f64.

Definition rect_main :=
  main rectangle rect_area id rect_mbr rect_arctan2 id rect_log.

(** The reference scenario: one region whose boundary has area 1,000,000 and
    whose lot geometry has two parts, of areas 100 and 300; a second
    boundary without lots and a single lot without boundary. *)
Definition scenario_lots : list (lot_feature rectangle) :=
  [ LotFeature "A" (MultiPolygon [Rectangle 0 0 10 10; Rectangle 20 20 10 30]);
    LotFeature "C" (Polygon (Rectangle 0 0 1 1)) ].

Definition scenario_boundaries : list (boundary_feature rectangle) :=
  [ BoundaryFeature "A" (Polygon (Rectangle 0 0 1000 1000));
    BoundaryFeature "B" (Polygon (Rectangle 0 0 500 500)) ].

(** Tables for the examples: the reference record on its own, and a record
    whose boundary has area 0. *)
Definition scenario_row : row rectangle :=
  Row "A" (MultiPolygon [Rectangle 0 0 10 10; Rectangle 20 20 10 30])
      (f_of_int 400) 2 (f_of_int 1000000) ∅.

Definition zero_boundary_row : row rectangle :=
  Row "Z" (Polygon (Rectangle 0 0 3 4)) (f_of_int 12) 1 f_zero ∅.

Definition scenario_heap : heap rectangle :=
  {[ 0%nat := [scenario_row; zero_boundary_row] ]}.

(** A region whose boundary polygon is degenerate, of area 0. *)
Definition zero_area_boundaries : list (boundary_feature rectangle) :=
  [ BoundaryFeature "A" (Polygon (Rectangle 0 0 0 1000)) ].


(** ** GeoJSON flattening ([data_processing/lot_retrieval.py])

    The values [json.loads] builds: objects are Python dicts, modelled as
    lists of members in insertion order (their keys are distinct; reading a
    key takes its first member, assigning to a present key replaces the
    value of that member).  A parsed document is a tree (no part is shared),
    so the in-place updates of [flatten_geojson] are modelled by the updated
    value it returns. *)

Local Unset Elimination Schemes.

Inductive json : Type :=
  | JNull
  | JBool (b : bool)
  | JInt (n : Z)
  | JFloat (x : float64)
  | JStr (s : string)
  | JArr (items : list json)
  | JObj (members : list (string * json)).

Local Set Elimination Schemes.

(** [isinstance(v, (float, int))]: [bool] is a subclass of [int]. *)
Definition is_number (v : json) : bool :=
  match v with
  | JInt _ | JFloat _ | JBool _ => true
  | _ => false
  end.

(** [coords[0]] and the slicing are those of a list; an empty list, and a
    value that is not a list, raise (a string recurses on its first
    character for ever). *)
Fixpoint flatten_coords (coords : json) : option json :=
  match coords with
  | JArr items =>
      match items with
      | [] => None
      | first :: _ =>
          if is_number first then Some (JArr (take 2 items))
          else JArr <$> mapM flatten_coords items
      end
  | _ => None
  end.

(** [d[key]] *)
Fixpoint get_member (key : string) (members : list (string * json))
  : option json :=
  match members with
  | [] => None
  | (k, v) :: rest => if decide (k = key) then Some v else get_member key rest
  end.

(** [d[key] = f(d[key])], for a function [f] that may raise; a missing key
    raises. *)
Definition update_member (key : string) (f : json -> option json)
  : list (string * json) -> option (list (string * json)) :=
  fix go members :=
    match members with
    | [] => None
    | (k, v) :: rest =>
        if decide (k = key) then v' ← f v; Some ((k, v') :: rest)
        else rest' ← go rest; Some ((k, v) :: rest')
    end.

Definition geometry_types : list string :=
  ["Polygon"; "MultiPolygon"; "LineString"; "MultiLineString"; "Point";
   "MultiPoint"].

(** [v == s] for a string [s] *)
Definition is_str (s : string) (v : json) : bool :=
  match v with
  | JStr s' => bool_decide (s' = s)
  | _ => false
  end.

(** [v in ["Polygon", ...]] *)
Definition is_geometry_type (v : json) : bool :=
  match v with
  | JStr s => bool_decide (s ∈ geometry_types)
  | _ => false
  end.

Fixpoint flatten_geojson (geojson : json) : option json :=
  match geojson with
  | JObj members =>
      type ← get_member "type" members;
      if is_geometry_type type then
        JObj <$> update_member "coordinates" flatten_coords members
      else if is_str "Feature" type then
        JObj <$> update_member "geometry" flatten_geojson members
      else if is_str "FeatureCollection" type then
        JObj <$> update_member "features"
          (fun features =>
             match features with
             | JArr items => JArr <$> mapM flatten_geojson items
             | JObj [] | JStr "" => Some features
             | _ => None
             end) members
      else Some geojson
  | _ => None
  end.

(** The loop [for feature in geojson["features"]] of [flatten_geojson]: an
    empty dict or string is iterated without effect, any other value that is
    not a list raises. *)
Definition flatten_features (features : json) : option json :=
  match features with
  | JArr items => JArr <$> mapM flatten_geojson items
  | JObj [] | JStr "" => Some features
  | _ => None
  end.

(** Notions to state what [flatten_coords] does.  A position is an array
    that starts with a number; [positions] lists the positions of a
    coordinate array in order, [skeleton] is the nesting that remains when
    every position is replaced by [null]. *)
Fixpoint positions (v : json) : list (list json) :=
  match v with
  | JArr items =>
      match items with
      | [] => []
      | first :: _ =>
          if is_number first then [items]
          else mjoin (positions <$> items)
      end
  | _ => []
  end.

Fixpoint skeleton (v : json) : json :=
  match v with
  | JArr items =>
      match items with
      | [] => v
      | first :: _ =>
          if is_number first then JNull else JArr (skeleton <$> items)
      end
  | _ => v
  end.

(** A coordinate array [flatten_coords] accepts: every array it reaches is
    not empty, and below an array that is not a position there are only
    arrays. *)
Fixpoint coords_ok (v : json) : bool :=
  match v with
  | JArr items =>
      match items with
      | [] => false
      | first :: _ => is_number first || forallb coords_ok items
      end
  | _ => false
  end.

Definition member_keys (members : list (string * json)) : list string :=
  members.*1.

(** Sample documents: a polygon with one ring of three-dimensional
    positions, a feature carrying it, and a collection of two features, the
    second with a geometry collection. *)
Definition sample_ring : json :=
  JArr [ JArr [JInt 0; JInt 0; JInt 7];
         JArr [JInt 4; JInt 0; JInt 7];
         JArr [JInt 4; JInt 3; JInt 7];
         JArr [JInt 0; JInt 0; JInt 7] ].

Definition sample_polygon : list (string * json) :=
  [ ("type", JStr "Polygon"); ("coordinates", JArr [sample_ring]) ].

Definition sample_feature : list (string * json) :=
  [ ("type", JStr "Feature");
    ("properties", JObj [("id", JStr "A")]);
    ("geometry", JObj sample_polygon) ].

Definition sample_other_geometry : list (string * json) :=
  [ ("type", JStr "GeometryCollection");
    ("geometries",
     JArr [JObj [("type", JStr "Point");
                 ("coordinates", JArr [JInt 1; JInt 2; JInt 3])]]) ].

Definition sample_other_feature : list (string * json) :=
  [ ("type", JStr "Feature"); ("geometry", JObj sample_other_geometry) ].

Definition sample_collection : list (string * json) :=
  [ ("type", JStr "FeatureCollection");
    ("features", JArr [JObj sample_feature; JObj sample_other_feature]) ].

(** ** Rounding to binary64

    The results of the float operations of numpy are the exact results
    rounded to the nearest binary64 number, ties to the even mantissa, with
    overflow to an infinity.  Every finite binary64 number is a whole
    multiple of [2^-1074], so the rounding is computed on integers: [a / d]
    is the magnitude in units of [2^-1074]; values below [2^53] units (the
    subnormal numbers and the first binade) are rounded to whole units,
    larger values to 53 significant bits.  Signed zeros and the payload of
    [NaN] are not modelled. *)

(** The quotient [a / b] rounded to the nearest integer, ties to even, for
    [0 <= a] and [0 < b]. *)
Definition rne_div (a b : Z) : Z :=
  let f := a / b in
  match 2 * (a mod b) ?= b with
  | Lt => f
  | Gt => f + 1
  | Eq => if Z.even f then f else f + 1
  end.

(** The magnitude [a / d], in units of [2^-1074], rounded to binary64 (in
    the same units). *)
Definition round_grid (a d : Z) : Z :=
  let s := Z.max 0 (Z.log2 (a / d) - 52) in
  rne_div a (d * 2 ^ s) * 2 ^ s.

(** The grid points: at most 53 significant bits. *)
Definition on_grid (k : Z) : Prop :=
  ∃ m t, k = m * 2 ^ t ∧ 0 <= m <= 2 ^ 53 ∧ 0 <= t.

Definition round_b64 (q : Qc) : float64 :=
  let n := Qnum q in
  let k := round_grid (Z.abs n * 2 ^ 1074) (Zpos (Qden q)) in
  if decide (2 ^ 2098 <= k) then (if decide (0 < n) then PInf else NInf)
  else Fin (Q2Qc (Qmake (Z.sgn n * k) (2 ^ 1074))).

(** A float operation: the exact result, rounded. *)
Definition rounded (a : float64) : float64 :=
  match a with
  | Fin q => round_b64 q
  | _ => a
  end.

Definition b64_add (a b : float64) : float64 := rounded (a + b).
Definition b64_sub (a b : float64) : float64 := rounded (a - b).
Definition b64_mul (a b : float64) : float64 := rounded (a * b).
Definition b64_div (a b : float64) : float64 := rounded (a / b).

(** An int64 (or a Python int) converted to float64. *)
Definition b64_of_int (z : Z) : float64 := rounded (f_of_int z).

(** The binary64 numbers that are not negative, [+inf] included. *)
Definition b64_nonneg (a : float64) : Prop :=
  rounded a = a ∧ f_le f_zero a ∧ a ≠ NaN.

(** ** [numpy.sum] in binary64

    [numpy.sum] of a contiguous float64 array adds the pairwise sum of the
    array to the initial value 0.  The pairwise sum of fewer than 8
    elements is the plain loop; up to 128 elements are added into 8
    interleaved accumulators, which are then combined, and the elements
    past the last whole block of 8 are added one by one; longer arrays are
    split in two, at a multiple of 8. *)

Fixpoint accumulate8 (blocks : nat) (r a : list float64) : list float64 :=
  match blocks with
  | O => r
  | S blocks => accumulate8 blocks (zip_with b64_add r (take 8 a)) (drop 8 a)
  end.

Definition combine8 (r : list float64) : float64 :=
  match r with
  | [r0; r1; r2; r3; r4; r5; r6; r7] =>
      b64_add (b64_add (b64_add r0 r1) (b64_add r2 r3))
              (b64_add (b64_add r4 r5) (b64_add r6 r7))
  | _ => NaN
  end.

(** The pairwise sum of 8 to 128 elements. *)
Definition block_sum (a : list float64) : float64 :=
  let blocks := (length a / 8)%nat in
  let r := accumulate8 (blocks - 1) (take 8 a) (drop 8 a) in
  foldl b64_add (combine8 r) (drop (8 * blocks) a).

(** The recursion halves the array: [fuel] bounds its depth, and the length
    of the array is always enough ([pairwise_sum_fuel]). *)
Fixpoint pairwise_sum (fuel : nat) (a : list float64) : float64 :=
  let n := length a in
  if decide (n < 8)%nat then foldl b64_add f_zero a
  else if decide (n <= 128)%nat then block_sum a
  else
    match fuel with
    | O => block_sum a
    | S fuel =>
        let n2 := (n / 2 - (n / 2) mod 8)%nat in
        b64_add (pairwise_sum fuel (take n2 a)) (pairwise_sum fuel (drop n2 a))
    end.

Definition np_sum_b64 (x : list float64) : float64 :=
  b64_add f_zero (pairwise_sum (length x) x).

(** [v] is a sum of the elements of [l]: the elements added with rounded
    additions, in some order and with some bracketing. *)
Inductive sum_of : list float64 → float64 → Prop :=
  | sum_of_nil : sum_of [] f_zero
  | sum_of_one a : sum_of [a] a
  | sum_of_add l1 l2 v1 v2 :
      sum_of l1 v1 → sum_of l2 v2 → sum_of (l1 ++ l2) (b64_add v1 v2)
  | sum_of_perm l l' v : l ≡ₚ l' → sum_of l v → sum_of l' v.

(** ** [gini_coefficient] in binary64

    The function once more, with every float operation rounded:
    [np.array(x, dtype=np.float64)] converts the values, the products, the
    sums and the quotient round. *)
Definition gini_coefficient_b64 (x : list float64) : float64 :=
  let x := rounded <$> x in
  if bool_decide (length x <= 1)%nat || f_eqb (np_sum_b64 x) f_zero then f_zero
  else
    let x := np_sort x in
    let n := Z.of_nat (length x) in
    let index := np_arange 1 (n + 1) in
    let weights := (fun i => b64_of_int (2 * i - n - 1)) <$> index in
    b64_div (np_sum_b64 (zip_with b64_mul weights x))
            (b64_mul (b64_of_int n) (np_sum_b64 x)).

(** Sums of integers, to state what the sums of whole-number areas are. *)
Definition Z_sum (l : list Z) : Z := foldr Z.add 0 l.
Definition Z_abs_sum (l : list Z) : Z := foldr (fun z s => Z.abs z + s) 0 l.

Fixpoint Z_rank_terms (n rank : Z) (l : list Z) : list Z :=
  match l with
  | [] => []
  | v :: rest => (2 * rank - n - 1) * v :: Z_rank_terms n (rank + 1) rest
  end.

(** ** [get_orientation] in binary64

    [a % b] on floats is the C remainder [fmod(a, b)], which is exact and
    has the sign of [a], to which [b] is added when it is not 0 and its sign
    differs from that of [b]; this addition rounds. *)
Definition Qc_trunc (q : Qc) : Z :=
  if decide (0 <= q)%Qc then Qfloor q else Qceiling q.

Definition b64_mod (a b : float64) : float64 :=
  match a, b with
  | Fin x, Fin y =>
      if decide (y = 0%Qc) then NaN
      else
        let r := (x - y * Qc_of_Z (Qc_trunc (x / y)))%Qc in
        if decide (r ≠ 0%Qc
                   ∧ bool_decide (r < 0)%Qc ≠ bool_decide (y < 0)%Qc)
        then b64_add (Fin r) b
        else Fin r
  | Fin x, PInf => if decide (0 <= x)%Qc then a else PInf
  | Fin x, NInf => if decide (x <= 0)%Qc then a else NInf
  | _, _ => NaN
  end.

Section OrientationB64.
Context {polygon : Type}.
Context (mbr_exterior_xy : polygon -> option (list float64 * list float64)).
Context (arctan2 : float64 -> float64 -> float64).
Context (degrees : float64 -> float64).

Definition get_orientation_b64 (poly : polygon) : option float64 :=
  '(x, y) ← mbr_exterior_xy poly;
  y1 ← y !! 1%nat; y0 ← y !! 0%nat;
  x1 ← x !! 1%nat; x0 ← x !! 0%nat;
  let edge_angle := arctan2 (b64_sub y1 y0) (b64_sub x1 x0) in
  Some (b64_mod (degrees edge_angle) (b64_of_int 90)).

End OrientationB64.

(** * Properties *)

(** ** Arithmetic on [float64] *)

Global Instance f_add_comm : Comm (=) f_add.
Proof. intros [x| | |] [y| | |]; simpl; try reflexivity. f_equal; ring. Qed.

Global Instance f_add_assoc : Assoc (=) f_add.
Proof.
  intros [x| | |] [y| | |] [z| | |]; simpl; try reflexivity. f_equal; ring.
Qed.

Lemma f_add_zero_l a : (f_zero + a)%f64 = a.
Proof. destruct a; simpl; try reflexivity. f_equal; ring. Qed.

Global Instance f_le_total : Total f_le.
Proof.
  intros [x| | |] [y| | |]; simpl; auto. apply (total Qcle).
Qed.

Global Instance f_le_trans : Transitive f_le.
Proof.
  intros [x| | |] [y| | |] [z| | |]; simpl; auto; try contradiction.
  apply Qcle_trans.
Qed.

Global Instance f_le_antisym : AntiSymm (=) f_le.
Proof.
  intros [x| | |] [y| | |]; simpl; try contradiction; auto.
  intros H1 H2. f_equal. by apply Qcle_antisym.
Qed.

Lemma Qfloor_add_Z (y : Q) (k : Z) :
  Qfloor (y + inject_Z k) = Qfloor y + k.
Proof.
  pose proof (Qfloor_le y) as H1. pose proof (Qlt_floor y) as H2.
  pose proof (Qfloor_le (y + inject_Z k)) as H3.
  pose proof (Qlt_floor (y + inject_Z k)) as H4.
  rewrite inject_Z_plus in H2, H4. change (inject_Z 1) with 1%Q in H2, H4.
  assert (inject_Z (Qfloor (y + inject_Z k)) < inject_Z (Qfloor y + k) + 1)%Q
    as A by (rewrite inject_Z_plus; lra).
  assert (inject_Z (Qfloor y + k) < inject_Z (Qfloor (y + inject_Z k)) + 1)%Q
    as B by (rewrite inject_Z_plus; lra).
  change 1%Q with (inject_Z 1) in A, B. rewrite <- inject_Z_plus in A, B.
  rewrite <- Zlt_Qlt in A, B. lia.
Qed.

(** The normalisation [% 90] of [get_orientation] forgets whole quarter
    turns of a finite angle. *)
Lemma f_mod_quarter_turns (x : Qc) (k : Z) :
  f_mod (Fin (x + Qc_of_Z 90 * Qc_of_Z k)%Qc) (f_of_int 90)
  = f_mod (Fin x) (f_of_int 90).
Proof.
  unfold f_mod, f_of_int. rewrite decide_False by done. f_equal.
  assert (E : Qfloor ((x + Qc_of_Z 90 * Qc_of_Z k) / Qc_of_Z 90)%Qc
              = Qfloor (x / Qc_of_Z 90)%Qc + k).
  { rewrite <- Qfloor_add_Z. apply Qfloor_comp.
    change (inject_Z k) with (this (Qc_of_Z k)).
    rewrite <- (Qred_correct (_ + this (Qc_of_Z k))).
    change (Qred (this (x / Qc_of_Z 90)%Qc + this (Qc_of_Z k)))
      with (this ((x / Qc_of_Z 90) + Qc_of_Z k)%Qc).
    assert (((x + Qc_of_Z 90 * Qc_of_Z k) / Qc_of_Z 90
             = x / Qc_of_Z 90 + Qc_of_Z k)%Qc) as -> by (by field).
    reflexivity. }
  rewrite E, Z2Qc_inj_add. ring.
Qed.

(** ** [numpy.sum] and [numpy.sort] *)

Lemma np_sum_Permutation x x' : x ≡ₚ x' → np_sum x = np_sum x'.
Proof.
  intros Hp. unfold np_sum.
  refine (foldr_permutation_proper (=) f_add f_zero _ _ _ Hp).
  intros a1 a2 b. by rewrite !(assoc_L f_add), (comm_L f_add a1 a2).
Qed.

Lemma np_sort_Permutation x : np_sort x ≡ₚ x.
Proof. apply merge_sort_Permutation. Qed.

Lemma np_sort_sorted x : StronglySorted f_le (np_sort x).
Proof. apply (StronglySorted_merge_sort _). Qed.

Lemma np_sort_length x : length (np_sort x) = length x.
Proof. apply Permutation_length, np_sort_Permutation. Qed.

(** Sorting forgets the order of the input. *)
Lemma np_sort_unique x x' : x ≡ₚ x' → np_sort x = np_sort x'.
Proof.
  intros Hp. apply (StronglySorted_unique f_le); auto using np_sort_sorted.
  by rewrite !np_sort_Permutation.
Qed.

(** A sorted list is its own sort. *)
Lemma np_sort_of_sorted x : StronglySorted f_le x → np_sort x = x.
Proof.
  intros Hs. apply (StronglySorted_unique f_le); auto using np_sort_sorted.
  apply np_sort_Permutation.
Qed.

(** ** The rank formula *)

Lemma np_arange_cons a b :
  a < b → np_arange a b = a :: np_arange (a + 1) b.
Proof.
  intros Hab. unfold np_arange.
  replace (Z.to_nat (b - a)) with (S (Z.to_nat (b - (a + 1)))) by lia.
  simpl. f_equal; [lia|].
  rewrite <- fmap_S_seq, <- list_fmap_compose.
  apply list_fmap_ext. intros _ k _. simpl. lia.
Qed.

Lemma np_arange_nil a b : b <= a → np_arange a b = [].
Proof. intros. unfold np_arange. by replace (Z.to_nat (b - a)) with 0%nat by lia. Qed.

Lemma np_arange_length a b : length (np_arange a b) = Z.to_nat (b - a).
Proof. unfold np_arange. by rewrite length_fmap, length_seq. Qed.

(** The weighted sum the program builds from index arrays is the sum over
    ranks. *)
Lemma weights_rank_weighted_sum n s k :
  np_sum (zip_with f_mul
            ((fun i => f_of_int (2 * i - n - 1))
               <$> np_arange k (k + Z.of_nat (length s))) s)
  = rank_weighted_sum n k s.
Proof.
  revert k. induction s as [|v s IH]; intros k.
  - simpl. by rewrite Z.add_0_r, np_arange_nil by lia.
  - rewrite np_arange_cons by (simpl length; lia).
    replace (k + Z.of_nat (length (v :: s)))
      with (k + 1 + Z.of_nat (length s)) by (simpl length; lia).
    cbn [fmap list_fmap zip_with rank_weighted_sum]. rewrite <- IH.
    reflexivity.
Qed.

(** ** Finite inputs: the computation on rationals *)

Ltac Qc_of_Z_ring :=
  repeat first
    [ rewrite Z2Qc_inj_sub | rewrite Z2Qc_inj_add | rewrite Z2Qc_inj_mul
    | rewrite Z2Qc_inj_opp | rewrite Z2Qc_inj_2 | rewrite Z2Qc_inj_1
    | rewrite Z2Qc_inj_0 ];
  ring.

(** Shifting every rank by one, in a population one larger, adds the plain
    sum. *)
Lemma Qc_rank_sum_shift n k l :
  Qc_rank_sum n (k + 1) l = (Qc_rank_sum (n - 1) k l + Qc_sum l)%Qc.
Proof.
  revert k. induction l as [|a l IH]; intros k; simpl.
  - ring.
  - rewrite IH. unfold Qc_sum; simpl; fold (Qc_sum l).
    replace (2 * (k + 1) - n - 1) with ((2 * k - (n - 1) - 1) + 1) by lia.
    Qc_of_Z_ring.
Qed.

(** Peeling off the smallest element: what remains is the rank sum of the
    rest plus the gaps to the smallest element. *)
Lemma Qc_rank_sum_cons a l :
  Qc_rank_sum (Z.of_nat (length (a :: l))) 1 (a :: l)
  = (Qc_rank_sum (Z.of_nat (length l)) 1 l
     + (Qc_sum l - Qc_of_Z (Z.of_nat (length l)) * a))%Qc.
Proof.
  cbn [Qc_rank_sum]. rewrite Qc_rank_sum_shift.
  replace (Z.of_nat (length (a :: l)) - 1) with (Z.of_nat (length l))
    by (simpl length; lia).
  replace (2 * 1 - Z.of_nat (length (a :: l)) - 1)
    with (- Z.of_nat (length l)) by (simpl length; lia).
  rewrite Z2Qc_inj_opp. ring.
Qed.

Lemma Qc_sum_gap_cons a b l :
  (Qc_sum (b :: l) - Qc_of_Z (Z.of_nat (length (b :: l))) * a
   = (b - a) + (Qc_sum l - Qc_of_Z (Z.of_nat (length l)) * a))%Qc.
Proof.
  unfold Qc_sum. cbn [foldr length].
  rewrite Nat2Z.inj_succ, <- Z.add_1_r, Z2Qc_inj_add, Z2Qc_inj_1. ring.
Qed.

Lemma Qc_sum_gap_nonneg a l :
  Forall (Qcle a) l → (0 <= Qc_sum l - Qc_of_Z (Z.of_nat (length l)) * a)%Qc.
Proof.
  induction 1 as [|b l Hab _ IH].
  - cbn. ring_simplify. apply Qcle_refl.
  - rewrite Qc_sum_gap_cons. apply Qcplus_nonneg_nonneg; [|done].
    by apply Qcle_minus_iff in Hab.
Qed.

Lemma Qc_sum_gap_pos a l :
  l ≠ [] → Forall (Qclt a) l →
  (0 < Qc_sum l - Qc_of_Z (Z.of_nat (length l)) * a)%Qc.
Proof.
  intros Hne Hall. destruct Hall as [|b l Hab Hall]; [done|].
  rewrite Qc_sum_gap_cons. apply Qcplus_pos_nonneg.
  - by apply Qclt_minus_iff in Hab.
  - apply Qc_sum_gap_nonneg. eapply Forall_impl; [exact Hall|].
    intros; by apply Qclt_le_weak.
Qed.

Lemma Qc_rank_sum_nonneg l :
  StronglySorted Qcle l → (0 <= Qc_rank_sum (Z.of_nat (length l)) 1 l)%Qc.
Proof.
  induction 1 as [|a l _ IH Ha].
  - apply Qcle_refl.
  - rewrite Qc_rank_sum_cons.
    apply Qcplus_nonneg_nonneg; [done|]. by apply Qc_sum_gap_nonneg.
Qed.

(** Sorted and pairwise distinct: the smallest element is strictly below
    the others, so with two or more elements the rank sum is positive. *)
Lemma Qc_rank_sum_pos l :
  StronglySorted Qcle l → NoDup l → (2 <= length l)%nat →
  (0 < Qc_rank_sum (Z.of_nat (length l)) 1 l)%Qc.
Proof.
  intros Hs Hd Hlen. destruct Hs as [|a l Hs Ha]; [simpl in Hlen; lia|].
  rewrite Qc_rank_sum_cons. apply NoDup_cons in Hd as [Hnotin Hd].
  apply Qcplus_nonneg_pos; [by apply Qc_rank_sum_nonneg|].
  apply Qc_sum_gap_pos.
  - intros ->. simpl in Hlen. lia.
  - apply Forall_forall. intros b Hb.
    rewrite Forall_forall in Ha. specialize (Ha b Hb).
    apply Qcle_lt_or_eq in Ha as [?| ->]; done.
Qed.

(** ** [gini_coefficient] *)

Lemma f_eqb_zero a : f_eqb a f_zero = true ↔ a = f_zero.
Proof.
  unfold f_eqb, f_zero. destruct a; rewrite ?bool_decide_eq_true; split; congruence.
Qed.

Lemma gini_coefficient_guard x :
  (length x < 2)%nat ∨ np_sum x = f_zero → gini_coefficient x = f_zero.
Proof.
  intros H. unfold gini_coefficient.
  destruct H as [H|H].
  - by rewrite bool_decide_eq_true_2 by lia.
  - apply f_eqb_zero in H. rewrite H. by rewrite orb_true_r.
Qed.

Lemma gini_coefficient_rank x sorted :
  ¬ (length x < 2)%nat → np_sum x ≠ f_zero →
  sorted ≡ₚ x → StronglySorted f_le sorted →
  gini_coefficient x
  = (rank_weighted_sum (Z.of_nat (length x)) 1 sorted
     / (f_of_int (Z.of_nat (length x)) * np_sum sorted))%f64.
Proof.
  intros Hlen Hsum Hp Hs. unfold gini_coefficient.
  rewrite bool_decide_eq_false_2 by lia.
  destruct (f_eqb (np_sum x) f_zero) eqn:E; [by apply f_eqb_zero in E|].
  cbn [orb].
  assert (np_sort x = sorted) as ->.
  { apply (StronglySorted_unique f_le); auto using np_sort_sorted.
    by rewrite np_sort_Permutation. }
  rewrite (Permutation_length Hp).
  replace (Z.of_nat (length x) + 1) with (1 + Z.of_nat (length sorted))
    by (rewrite (Permutation_length Hp); lia).
  by rewrite weights_rank_weighted_sum.
Qed.

Lemma Qc_sum_replicate n v :
  Qc_sum (replicate n v) = (Qc_of_Z (Z.of_nat n) * v)%Qc.
Proof.
  induction n as [|n IH].
  - change (Z.of_nat 0) with 0. rewrite Z2Qc_inj_0.
    unfold Qc_sum. cbn [replicate foldr]. ring.
  - unfold Qc_sum in *. cbn [replicate foldr]. rewrite IH.
    rewrite Nat2Z.inj_succ, <- Z.add_1_r, Z2Qc_inj_add, Z2Qc_inj_1. ring.
Qed.

(** All elements equal: the rank sum vanishes. *)
Lemma Qc_rank_sum_replicate n v :
  Qc_rank_sum (Z.of_nat n) 1 (replicate n v) = 0%Qc.
Proof.
  induction n as [|n IH]; [done|].
  pose proof (Qc_rank_sum_cons v (replicate n v)) as E.
  cbn [length] in E. rewrite length_replicate in E.
  cbn [replicate]. rewrite E, IH, Qc_sum_replicate. ring.
Qed.



(** ** Rounding to binary64 *)

(** *** Rounding a quotient to the nearest integer *)

Lemma rne_div_spec a b :
  0 < b →
  (2 * rne_div a b - 1) * b <= 2 * a <= (2 * rne_div a b + 1) * b
  ∧ (2 * a = (2 * rne_div a b - 1) * b → Z.even (rne_div a b) = true)
  ∧ (2 * a = (2 * rne_div a b + 1) * b → Z.even (rne_div a b) = true).
Proof.
  intros Hb. unfold rne_div.
  pose proof (Z.div_mod a b ltac:(lia)) as Ha.
  pose proof (Z.mod_pos_bound a b Hb) as Hr.
  set (f := a / b) in *. set (r := a mod b) in *.
  destruct (Z.compare_spec (2 * r) b) as [E|E|E].
  - destruct (Z.even f) eqn:Hf.
    + repeat split; [nia|nia|nia|done].
    + assert (Z.even (f + 1) = true) as Hf'.
      { rewrite Z.even_add, Hf. reflexivity. }
      repeat split; [nia|nia|done|nia].
  - repeat split; nia.
  - repeat split; nia.
Qed.

Lemma rne_div_exact k b : 0 < b → rne_div (k * b) b = k.
Proof.
  intros Hb. unfold rne_div.
  rewrite Z.div_mul, Z.mod_mul by lia. rewrite Z.mul_0_r.
  destruct (Z.compare_spec 0 b); [lia|done|lia].
Qed.

Lemma rne_div_mono a b a' b' :
  0 < b → 0 < b' → a * b' <= a' * b → rne_div a b <= rne_div a' b'.
Proof.
  intros Hb Hb' Hle.
  destruct (rne_div_spec a b Hb) as ((Hlo & _) & Hodd & _).
  destruct (rne_div_spec a' b' Hb') as ((_ & Hhi') & _ & Hodd').
  set (k := rne_div a b) in *. set (k' := rne_div a' b') in *.
  destruct (Z_le_gt_dec k k') as [?|Hgt]; [done|exfalso].
  assert (H1 : (2 * k - 1) * (b * b') <= (2 * k' + 1) * (b * b')) by nia.
  assert (Hk : k = k' + 1) by nia.
  assert (Ha : 2 * a = (2 * k - 1) * b) by nia.
  assert (Ha' : 2 * a' = (2 * k' + 1) * b') by nia.
  specialize (Hodd Ha). specialize (Hodd' Ha').
  rewrite Hk, Z.even_add, Hodd' in Hodd. discriminate.
Qed.

Lemma rne_div_nonneg a b : 0 <= a → 0 < b → 0 <= rne_div a b.
Proof.
  intros Ha Hb. rewrite <- (rne_div_exact 0 b Hb).
  apply rne_div_mono; lia.
Qed.

(** *** Rounding on the grid *)

Lemma floor_pow2_bounds a d :
  0 <= a → 0 < d →
  a < 2 ^ (Z.log2 (a / d) + 1) * d
  ∧ (0 < a / d → 2 ^ Z.log2 (a / d) * d <= a).
Proof.
  intros Ha Hd.
  pose proof (Z.div_mod a d ltac:(lia)) as E.
  pose proof (Z.mod_pos_bound a d Hd) as Hr.
  assert (HF : 0 <= a / d) by (apply Z.div_pos; lia).
  split.
  - destruct (Z.eq_dec (a / d) 0) as [E0|Hne].
    + rewrite E0 in *. cbn. lia.
    + pose proof (Z.log2_spec (a / d) ltac:(lia)) as [_ Hhi].
      rewrite <- Z.add_1_r in Hhi. nia.
  - intros Hpos. pose proof (Z.log2_spec (a / d) Hpos) as [Hlo _]. nia.
Qed.

Lemma round_grid_upper a d :
  0 <= a → 0 < d →
  rne_div a (d * 2 ^ Z.max 0 (Z.log2 (a / d) - 52)) <= 2 ^ 53.
Proof.
  intros Ha Hd. set (s := Z.max 0 (Z.log2 (a / d) - 52)).
  assert (Hs : 0 <= s) by lia.
  assert (H2s : 0 < 2 ^ s) by (apply Z.pow_pos_nonneg; lia).
  rewrite <- (rne_div_exact (2 ^ 53) (d * 2 ^ s)) by nia.
  apply rne_div_mono; [nia|nia|].
  destruct (floor_pow2_bounds a d Ha Hd) as [Hhi _].
  assert (Hpow : 2 ^ (Z.log2 (a / d) + 1) <= 2 ^ 53 * 2 ^ s).
  { rewrite <- Z.pow_add_r by lia. apply Z.pow_le_mono_r; lia. }
  assert (Hb : a <= 2 ^ 53 * (d * 2 ^ s)) by nia.
  apply Z.mul_le_mono_nonneg_r; [nia|exact Hb].
Qed.

Lemma round_grid_lower a d :
  0 <= a → 0 < d → 0 < Z.log2 (a / d) - 52 →
  2 ^ 52 <= rne_div a (d * 2 ^ Z.max 0 (Z.log2 (a / d) - 52)).
Proof.
  intros Ha Hd Hs. rewrite Z.max_r by lia.
  set (s := Z.log2 (a / d) - 52) in *.
  assert (H2s : 0 < 2 ^ s) by (apply Z.pow_pos_nonneg; lia).
  rewrite <- (rne_div_exact (2 ^ 52) (d * 2 ^ s)) at 1 by nia.
  apply rne_div_mono; [nia|nia|].
  assert (Hpos : 0 < a / d).
  { destruct (Z.eq_dec (a / d) 0) as [E|?].
    - unfold s in Hs. rewrite E in Hs. cbn in Hs. lia.
    - pose proof (Z.div_pos a d Ha Hd). lia. }
  destruct (floor_pow2_bounds a d Ha Hd) as [_ Hlo]. specialize (Hlo Hpos).
  assert (Hpow : 2 ^ Z.log2 (a / d) = 2 ^ 52 * 2 ^ s).
  { rewrite <- Z.pow_add_r by lia. f_equal. unfold s. lia. }
  assert (Hb : 2 ^ 52 * (d * 2 ^ s) <= a) by nia.
  apply Z.mul_le_mono_nonneg_r; [nia|exact Hb].
Qed.

Lemma round_grid_nonneg a d : 0 <= a → 0 < d → 0 <= round_grid a d.
Proof.
  intros Ha Hd. unfold round_grid.
  set (s := Z.max 0 _).
  assert (H2s : 0 < 2 ^ s) by (apply Z.pow_pos_nonneg; lia).
  pose proof (rne_div_nonneg a (d * 2 ^ s) Ha ltac:(nia)). nia.
Qed.

Lemma round_grid_on_grid a d : 0 <= a → 0 < d → on_grid (round_grid a d).
Proof.
  intros Ha Hd. unfold round_grid. eexists _, _. split; [reflexivity|].
  split; [|lia]. split; [|by apply round_grid_upper].
  apply rne_div_nonneg; [done|].
  assert (0 < 2 ^ Z.max 0 (Z.log2 (a / d) - 52))
    by (apply Z.pow_pos_nonneg; lia).
  nia.
Qed.

Lemma floor_mono a d a' d' :
  0 <= a → 0 < d → 0 < d' → a * d' <= a' * d → a / d <= a' / d'.
Proof.
  intros Ha Hd Hd' Hle. apply Z.div_le_lower_bound; [done|].
  pose proof (Z.mul_div_le a d Hd). nia.
Qed.

Lemma round_grid_mono a d a' d' :
  0 <= a → 0 < d → 0 < d' → a * d' <= a' * d →
  round_grid a d <= round_grid a' d'.
Proof.
  intros Ha Hd Hd' Hle.
  assert (Ha' : 0 <= a') by nia.
  pose proof (floor_mono a d a' d' Ha Hd Hd' Hle) as HF.
  pose proof (Z.log2_le_mono _ _ HF) as HL.
  pose proof (round_grid_upper a d Ha Hd) as Hup.
  unfold round_grid.
  set (s := Z.max 0 (Z.log2 (a / d) - 52)) in *.
  set (s' := Z.max 0 (Z.log2 (a' / d') - 52)).
  assert (H2s : 0 < 2 ^ s) by (apply Z.pow_pos_nonneg; lia).
  assert (H2s' : 0 < 2 ^ s') by (apply Z.pow_pos_nonneg; lia).
  destruct (Z.eq_dec s s') as [E|Hne].
  - rewrite <- E. apply Z.mul_le_mono_nonneg_r; [lia|].
    apply rne_div_mono; nia.
  - assert (Hlt : s < s') by lia.
    pose proof (round_grid_lower a' d' Ha' Hd' ltac:(lia)) as Hlo.
    fold s' in Hlo.
    assert (Hpow : 2 ^ 53 * 2 ^ s <= 2 ^ 52 * 2 ^ s').
    { rewrite <- !Z.pow_add_r by lia. apply Z.pow_le_mono_r; lia. }
    pose proof (rne_div_nonneg a (d * 2 ^ s) Ha ltac:(nia)).
    nia.
Qed.

Lemma round_grid_exact k d : on_grid k → 0 < d → round_grid (k * d) d = k.
Proof.
  intros (m & t & -> & [Hm0 Hm] & Ht) Hd. unfold round_grid.
  rewrite Z.div_mul by lia.
  set (s := Z.max 0 (Z.log2 (m * 2 ^ t) - 52)).
  assert (∃ c, m * 2 ^ t = c * 2 ^ s) as [c Hc].
  { destruct (Z.eq_dec m 0) as [->|Hne].
    { exists 0. lia. }
    assert (HL : Z.log2 (m * 2 ^ t) = t + Z.log2 m)
      by (apply Z.log2_mul_pow2; lia).
    destruct (Z.eq_dec m (2 ^ 53)) as [->|Hne'].
    - exists (2 ^ 52). unfold s. rewrite HL.
      change (Z.log2 (2 ^ 53)) with 53. rewrite Z.max_r by lia.
      rewrite <- !Z.pow_add_r by lia. f_equal. lia.
    - assert (Z.log2 m < 53) by (apply Z.log2_lt_pow2; lia).
      exists (m * 2 ^ (t - s)). rewrite <- Z.mul_assoc, <- Z.pow_add_r by lia.
      do 2 f_equal. lia. }
  assert (H2s : 0 < 2 ^ s) by (apply Z.pow_pos_nonneg; lia).
  replace (m * 2 ^ t * d) with (c * (d * 2 ^ s)) by (rewrite Hc; ring).
  rewrite rne_div_exact by nia. lia.
Qed.

(** *** [round_b64] *)

Lemma Q2Qc_grid_le (a b : Z) (D : positive) :
  a <= b → (Q2Qc (a # D) <= Q2Qc (b # D))%Qc.
Proof.
  intros Hab. unfold Qcle. cbn [this Q2Qc]. rewrite !Qred_correct.
  unfold Qle. cbn [Qnum Qden]. nia.
Qed.

Lemma round_grid_0 d : 0 < d → round_grid 0 d = 0.
Proof.
  intros Hd. apply (round_grid_exact 0 d); [|done].
  exists 0, 0. lia.
Qed.

(** Rounding is monotone. *)
Lemma round_b64_mono (p q : Qc) :
  (p <= q)%Qc → f_le (round_b64 p) (round_b64 q).
Proof.
  unfold Qcle, Qle. intros Hle. unfold round_b64.
  set (np := Qnum p) in *. set (nq := Qnum q) in *.
  set (dp := Zpos (Qden p)) in *. set (dq := Zpos (Qden q)) in *.
  assert (Hdp : 0 < dp) by done. assert (Hdq : 0 < dq) by done.
  assert (H2 : 0 < 2 ^ 1074) by done.
  set (U := 2 ^ 1074) in *.
  pose proof (round_grid_nonneg (Z.abs np * U) dp ltac:(nia) Hdp) as Hkp.
  pose proof (round_grid_nonneg (Z.abs nq * U) dq ltac:(nia) Hdq) as Hkq.
  assert (H0p : np = 0 → round_grid (Z.abs np * U) dp = 0).
  { intros ->. by apply round_grid_0. }
  assert (H0q : nq = 0 → round_grid (Z.abs nq * U) dq = 0).
  { intros ->. by apply round_grid_0. }
  assert (Hpos : 0 <= np →
            round_grid (Z.abs np * U) dp <= round_grid (Z.abs nq * U) dq).
  { intros Hnp. apply round_grid_mono; [nia|done|done|nia]. }
  assert (Hneg : nq <= 0 →
            round_grid (Z.abs nq * U) dq <= round_grid (Z.abs np * U) dp).
  { intros Hnq. apply round_grid_mono; [nia|done|done|nia]. }
  clearbody U.
  set (kp := round_grid (Z.abs np * U) dp) in *.
  set (kq := round_grid (Z.abs nq * U) dq) in *.
  assert (Hbig : 0 < 2 ^ 2098) by done.
  set (B := 2 ^ 2098) in *. clearbody B kp kq.
  repeat case_decide; cbn [f_le]; try done; try nia;
    apply Q2Qc_grid_le; nia.
Qed.

(** A value on the grid, below the overflow threshold, is its own
    rounding. *)
Lemma round_b64_exact (q : Qc) (k : Z) :
  on_grid k → k < 2 ^ 2098 →
  Z.abs (Qnum q) * 2 ^ 1074 = k * Zpos (Qden q) →
  round_b64 q = Fin q.
Proof.
  intros Hk Hlt Hq. unfold round_b64.
  rewrite Hq, round_grid_exact by done.
  rewrite decide_False by lia. f_equal.
  apply Qc_is_canon. cbn [this Q2Qc]. rewrite Qred_correct.
  unfold Qeq. cbn [Qnum Qden]. rewrite Pos2Z.inj_pow.
  change (Z.pos 2 ^ Z.pos 1074) with (2 ^ 1074).
  set (U := 2 ^ 1074) in *. clearbody U. nia.
Qed.

(** The results of rounding are binary64 numbers. *)
Lemma round_b64_idem (p q : Qc) :
  round_b64 p = Fin q → round_b64 q = Fin q.
Proof.
  unfold round_b64.
  set (k := round_grid (Z.abs (Qnum p) * 2 ^ 1074) (Zpos (Qden p))).
  assert (Hgrid : on_grid k) by (apply round_grid_on_grid; lia).
  assert (Hk0 : 0 <= k) by (apply round_grid_nonneg; lia).
  assert (Hz : Qnum p = 0 → k = 0).
  { intros E. unfold k. rewrite E. by apply round_grid_0. }
  case_decide as Hov; [by case_decide|].
  intros [= <-]. apply (round_b64_exact _ k Hgrid); [lia|].
  assert (E : (this (Q2Qc (Z.sgn (Qnum p) * k # 2 ^ 1074))
               == (Z.sgn (Qnum p) * k # 2 ^ 1074))%Q)
    by apply Qred_correct.
  unfold Qeq in E. cbn [Qnum Qden] in E. rewrite Pos2Z.inj_pow in E.
  change (Z.pos 2 ^ Z.pos 1074) with (2 ^ 1074) in E.
  assert (HU : 0 < 2 ^ 1074) by done.
  set (U := 2 ^ 1074) in *. clearbody U k.
  set (n' := Qnum (this (Q2Qc _))) in *.
  set (d' := Zpos (Qden (this (Q2Qc _)))) in *.
  assert (0 < d') by done. clearbody n' d'.
  destruct (Z.lt_trichotomy (Qnum p) 0) as [Hn|[Hn|Hn]].
  - rewrite Z.sgn_neg in E by done. nia.
  - rewrite Hn in E. rewrite (Hz Hn) in *. cbn in E. nia.
  - rewrite Z.sgn_pos in E by done. nia.
Qed.

(** Integers up to [2^53] in magnitude are binary64 numbers. *)
Lemma round_b64_int (z : Z) :
  Z.abs z <= 2 ^ 53 → round_b64 (Qc_of_Z z) = Fin (Qc_of_Z z).
Proof.
  intros Hz. apply (round_b64_exact _ (Z.abs z * 2 ^ 1074)).
  - exists (Z.abs z), 1074. lia.
  - assert (2 ^ 53 * 2 ^ 1074 < 2 ^ 2098) by done.
    assert (0 < 2 ^ 1074) by done. nia.
  - change (Z.abs z * 2 ^ 1074 = Z.abs z * 2 ^ 1074 * 1). lia.
Qed.

Lemma round_b64_0 : round_b64 0 = f_zero.
Proof.
  apply (round_b64_exact 0%Qc 0); [|done|reflexivity].
  exists 0, 0. lia.
Qed.

Lemma round_b64_not_NaN q : round_b64 q ≠ NaN.
Proof. unfold round_b64. by repeat case_decide. Qed.

(** Rounding keeps the sign. *)
Lemma round_b64_nonneg q : (0 <= q)%Qc → f_le f_zero (round_b64 q).
Proof. intros H. rewrite <- round_b64_0. by apply round_b64_mono. Qed.

(** ** [numpy.sum] in binary64 *)

(** *** The result is a sum of the elements *)

Lemma foldl_sum_of l0 v0 l :
  sum_of l0 v0 → sum_of (l0 ++ l) (foldl b64_add v0 l).
Proof.
  revert l0 v0. induction l as [|a l IH]; intros l0 v0 H0; cbn [foldl].
  - by rewrite app_nil_r.
  - replace (l0 ++ a :: l) with ((l0 ++ [a]) ++ l)
      by (by rewrite <- app_assoc).
    apply IH. apply sum_of_add; [done|constructor].
Qed.

Lemma zip_with_snoc_Permutation (gs : list (list float64)) b :
  length gs = length b →
  mjoin (zip_with (fun g x => g ++ [x]) gs b) ≡ₚ mjoin gs ++ b.
Proof.
  revert b. induction gs as [|g gs IH]; intros [|x b] Hlen; try done.
  cbn [zip_with mjoin list_join]. rewrite IH by (simpl in Hlen; lia).
  rewrite <- !app_assoc. apply Permutation_app_head.
  cbn [app]. rewrite (Permutation_middle (mjoin gs) b x). done.
Qed.

Lemma zip_with_sum_of (gs : list (list float64)) r b :
  Forall2 sum_of gs r → length r = length b →
  Forall2 sum_of (zip_with (fun g x => g ++ [x]) gs b)
    (zip_with b64_add r b).
Proof.
  intros H. revert b. induction H as [|g v gs r Hg _ IH]; intros [|x b] Hlen;
    try done; cbn [zip_with]; try (by constructor).
  constructor; [|apply IH; simpl in Hlen; lia].
  apply sum_of_add; [done|constructor].
Qed.

Lemma accumulate8_sum_of blocks gs r a :
  Forall2 sum_of gs r → length r = 8%nat → (8 * blocks <= length a)%nat →
  ∃ gs', Forall2 sum_of gs' (accumulate8 blocks r a)
         ∧ length (accumulate8 blocks r a) = 8%nat
         ∧ mjoin gs' ≡ₚ mjoin gs ++ take (8 * blocks) a.
Proof.
  revert gs r a. induction blocks as [|blocks IH]; intros gs r a Hgs Hr Ha.
  - exists gs. repeat (split; [done|]).
    by rewrite Nat.mul_0_r, take_0, app_nil_r.
  - cbn [accumulate8].
    assert (Hb : length (take 8 a) = 8%nat) by (rewrite length_take; lia).
    destruct (IH (zip_with (fun g x => g ++ [x]) gs (take 8 a))
                 (zip_with b64_add r (take 8 a)) (drop 8 a))
      as (gs' & Hgs' & Hlen & Hperm).
    + apply zip_with_sum_of; [done|lia].
    + rewrite length_zip_with. lia.
    + rewrite length_drop. lia.
    + exists gs'. repeat (split; [done|]). rewrite Hperm.
      rewrite zip_with_snoc_Permutation
        by (rewrite (Forall2_length _ _ _ Hgs); lia).
      rewrite <- app_assoc. apply Permutation_app_head.
      replace (8 * S blocks)%nat with (8 + 8 * blocks)%nat by lia.
      by rewrite take_take_drop.
Qed.

Lemma combine8_sum_of gs r :
  Forall2 sum_of gs r → length r = 8%nat → sum_of (mjoin gs) (combine8 r).
Proof.
  intros H Hr.
  do 8 (destruct H as [|? ? ? ? ? H]; [simpl in Hr; lia|]).
  destruct H; [|simpl in Hr; lia].
  cbn [combine8 mjoin list_join]. rewrite app_nil_r, !app_assoc.
  match goal with
  | |- sum_of (((((((?g0 ++ ?g1) ++ ?g2) ++ ?g3) ++ ?g4) ++ ?g5) ++ ?g6)
               ++ ?g7) _ =>
      replace (((((((g0 ++ g1) ++ g2) ++ g3) ++ g4) ++ g5) ++ g6) ++ g7)
        with (((g0 ++ g1) ++ (g2 ++ g3)) ++ ((g4 ++ g5) ++ (g6 ++ g7)))
        by (by rewrite !app_assoc)
  end.
  by repeat apply sum_of_add.
Qed.

Lemma mjoin_singletons (l : list float64) : mjoin ((fun x => [x]) <$> l) = l.
Proof. induction l as [|x l IH]; [done|]. simpl. f_equal. exact IH. Qed.

Lemma block_sum_sum_of a : (8 <= length a)%nat → sum_of a (block_sum a).
Proof.
  intros Ha. unfold block_sum.
  set (blocks := (length a / 8)%nat).
  assert (Hblocks : (1 <= blocks ∧ 8 * blocks <= length a)%nat).
  { unfold blocks. split.
    - by apply Nat.div_le_lower_bound.
    - by apply Nat.Div0.mul_div_le. }
  destruct (accumulate8_sum_of (blocks - 1) ((fun x => [x]) <$> take 8 a)
              (take 8 a) (drop 8 a)) as (gs & Hgs & Hr & Hperm).
  - apply Forall2_fmap_l, Forall_Forall2_diag, Forall_forall.
    intros x _. constructor.
  - rewrite length_take. lia.
  - rewrite length_drop. lia.
  - eapply sum_of_perm;
      [|apply foldl_sum_of, (combine8_sum_of gs); [exact Hgs|exact Hr]].
    rewrite Hperm, mjoin_singletons, take_take_drop.
    replace (8 + 8 * (blocks - 1))%nat with (8 * blocks)%nat by lia.
    by rewrite take_drop.
Qed.

Lemma pairwise_split_bounds n :
  (128 < n)%nat → (0 < n / 2 - (n / 2) mod 8 < n)%nat.
Proof.
  intros Hn.
  pose proof (Nat.Div0.mod_le (n / 2) 8).
  pose proof (Nat.mod_upper_bound (n / 2) 8 ltac:(lia)).
  pose proof (Nat.Div0.mul_div_le n 2).
  assert (64 <= n / 2)%nat by (apply Nat.div_le_lower_bound; lia).
  lia.
Qed.

Lemma pairwise_sum_sum_of fuel a :
  (length a <= fuel)%nat → sum_of a (pairwise_sum fuel a).
Proof.
  revert a. induction fuel as [|fuel IH]; intros a Hlen.
  - destruct a; [|simpl in Hlen; lia]. cbn. constructor.
  - cbn [pairwise_sum]. case_decide as H8.
    { apply (foldl_sum_of [] f_zero a). constructor. }
    case_decide as H128; [apply block_sum_sum_of; lia|].
    pose proof (pairwise_split_bounds (length a) ltac:(lia)) as Hn2.
    set (n2 := (length a / 2 - (length a / 2) mod 8)%nat) in *.
    rewrite <- (take_drop n2 a) at 1.
    apply sum_of_add; apply IH.
    + rewrite length_take. lia.
    + rewrite length_drop. lia.
Qed.

(** The length of the array is fuel enough. *)
Lemma pairwise_sum_fuel fuel a :
  (length a <= fuel)%nat → pairwise_sum fuel a = pairwise_sum (length a) a.
Proof.
  revert a. induction fuel as [fuel IH] using lt_wf_ind. intros a Hlen.
  destruct fuel as [|fuel].
  { by destruct a; [|simpl in Hlen; lia]. }
  destruct (length a) as [|m] eqn:Em.
  { apply length_zero_iff_nil in Em as ->. reflexivity. }
  cbn [pairwise_sum]. rewrite Em.
  case_decide as H8; [done|]. case_decide as H128; [done|].
  pose proof (pairwise_split_bounds (S m) ltac:(lia)) as Hn2.
  set (n2 := (S m / 2 - (S m / 2) mod 8)%nat) in *.
  rewrite (IH fuel ltac:(lia) (take n2 a)) by (rewrite length_take; lia).
  rewrite (IH fuel ltac:(lia) (drop n2 a)) by (rewrite length_drop; lia).
  rewrite (IH m ltac:(lia) (take n2 a)) by (rewrite length_take; lia).
  rewrite (IH m ltac:(lia) (drop n2 a)) by (rewrite length_drop; lia).
  reflexivity.
Qed.

Lemma np_sum_b64_sum_of x : sum_of x (np_sum_b64 x).
Proof.
  unfold np_sum_b64. apply (sum_of_add [] x); [constructor|].
  by apply pairwise_sum_sum_of.
Qed.

(** *** What every sum of the elements satisfies *)

Lemma b64_add_NaN_r a : b64_add a NaN = NaN.
Proof. by destruct a. Qed.

(** A [NaN] among the elements makes the sum [NaN]. *)
Lemma sum_of_NaN l v : sum_of l v → NaN ∈ l → v = NaN.
Proof.
  induction 1 as [|a|l1 l2 v1 v2 _ IH1 _ IH2|l l' v Hp _ IH].
  - by intros ?%not_elem_of_nil.
  - by intros ->%list_elem_of_singleton.
  - intros [H|H]%elem_of_app.
    + by rewrite (IH1 H).
    + by rewrite (IH2 H), b64_add_NaN_r.
  - intros H. apply IH. by rewrite Hp.
Qed.

Lemma b64_nonneg_zero : b64_nonneg f_zero.
Proof. split; [exact round_b64_0|done]. Qed.

Lemma b64_nonneg_rounded a : f_le f_zero a → a ≠ NaN → b64_nonneg (rounded a).
Proof.
  intros Hle Hn. destruct a as [q| | |]; try done.
  cbn [rounded]. cbn [f_le f_zero] in Hle.
  pose proof (round_b64_nonneg q Hle) as H0.
  pose proof (round_b64_not_NaN q) as HN.
  split; [|done].
  destruct (round_b64 q) as [q'| | |] eqn:E; try done.
  cbn [rounded]. by apply (round_b64_idem q).
Qed.

(** The sum of two such numbers is one, and it is 0 only when both are. *)
Lemma b64_nonneg_add a b :
  b64_nonneg a → b64_nonneg b →
  b64_nonneg (b64_add a b)
  ∧ (b64_add a b = f_zero → a = f_zero ∧ b = f_zero).
Proof.
  intros (Ha & Ha0 & HaN) (Hb & Hb0 & HbN).
  destruct a as [x| | |], b as [y| | |]; try done.
  cbn [f_le f_zero] in Ha0, Hb0. cbn [rounded] in Ha, Hb.
  unfold b64_add. cbn [f_add]. split.
  - apply b64_nonneg_rounded; [|done]. cbn [f_le f_zero].
    rewrite <- (Qcplus_0_l 0). by apply Qcplus_le_compat.
  - cbn [rounded]. intros E.
    assert (Hx : (x <= x + y)%Qc).
    { rewrite <- (Qcplus_0_r x) at 1. by apply Qcplus_le_compat. }
    assert (Hy : (y <= x + y)%Qc).
    { rewrite <- (Qcplus_0_l y) at 1. by apply Qcplus_le_compat. }
    apply round_b64_mono in Hx, Hy. rewrite E in Hx, Hy.
    rewrite Ha in Hx. rewrite Hb in Hy. cbn [f_le f_zero] in Hx, Hy.
    split; f_equal; by apply Qcle_antisym.
Qed.

Lemma sum_of_nonneg l v :
  sum_of l v → Forall b64_nonneg l →
  b64_nonneg v ∧ (v = f_zero ↔ Forall (eq f_zero) l).
Proof.
  induction 1 as [|a|l1 l2 v1 v2 _ IH1 _ IH2|l l' v Hp _ IH].
  - intros _. split; [exact b64_nonneg_zero|done].
  - intros [Ha _]%Forall_cons. split; [done|].
    split; [intros ->; by repeat constructor|].
    by intros [-> _]%Forall_cons.
  - intros [H1 H2]%Forall_app.
    destruct (IH1 H1) as [Hv1 E1]. destruct (IH2 H2) as [Hv2 E2].
    destruct (b64_nonneg_add v1 v2 Hv1 Hv2) as [Hnn Hz].
    split; [done|]. rewrite Forall_app. split.
    + intros [? ?]%Hz. split; [by apply E1|by apply E2].
    + intros [H1'%E1 H2'%E2]. subst.
      change (round_b64 (0 + 0) = f_zero). rewrite Qcplus_0_l.
      exact round_b64_0.
  - intros H. rewrite <- Hp in H. destruct (IH H) as [Hv E].
    split; [done|]. by rewrite <- Hp.
Qed.

(** **** Whole numbers *)

Lemma Z_sum_app l1 l2 : Z_sum (l1 ++ l2) = Z_sum l1 + Z_sum l2.
Proof.
  unfold Z_sum. induction l1 as [|a l1 IH]; cbn [app foldr]; lia.
Qed.

Lemma Z_abs_sum_app l1 l2 :
  Z_abs_sum (l1 ++ l2) = Z_abs_sum l1 + Z_abs_sum l2.
Proof.
  unfold Z_abs_sum. induction l1 as [|a l1 IH]; cbn [app foldr]; lia.
Qed.

Lemma Z_sum_Permutation l l' : l ≡ₚ l' → Z_sum l = Z_sum l'.
Proof.
  unfold Z_sum. induction 1; cbn [foldr]; lia.
Qed.

Lemma Z_abs_sum_Permutation l l' : l ≡ₚ l' → Z_abs_sum l = Z_abs_sum l'.
Proof.
  unfold Z_abs_sum. induction 1; cbn [foldr]; lia.
Qed.

Lemma Z_sum_abs l : Z.abs (Z_sum l) <= Z_abs_sum l.
Proof.
  unfold Z_sum, Z_abs_sum. induction l as [|a l IH]; cbn [foldr]; lia.
Qed.

Lemma Z_abs_sum_nonneg l : 0 <= Z_abs_sum l.
Proof.
  unfold Z_abs_sum. induction l as [|a l IH]; cbn [foldr]; lia.
Qed.

Lemma rounded_of_int z : Z.abs z <= 2 ^ 53 → rounded (f_of_int z) = f_of_int z.
Proof. apply round_b64_int. Qed.

Lemma b64_add_of_int a b :
  Z.abs (a + b) <= 2 ^ 53 →
  b64_add (f_of_int a) (f_of_int b) = f_of_int (a + b).
Proof.
  intros H. unfold b64_add, f_of_int. cbn [f_add rounded].
  rewrite <- Z2Qc_inj_add. by apply round_b64_int.
Qed.

Lemma b64_mul_of_int a b :
  Z.abs (a * b) <= 2 ^ 53 →
  b64_mul (f_of_int a) (f_of_int b) = f_of_int (a * b).
Proof.
  intros H. unfold b64_mul, f_of_int. cbn [f_mul rounded].
  rewrite <- Z2Qc_inj_mul. by apply round_b64_int.
Qed.

(** Sums of whole numbers of bounded magnitude are exact, whatever the
    order of the additions. *)
Lemma sum_of_ints l v :
  sum_of l v → ∀ zs, l = f_of_int <$> zs → Z_abs_sum zs <= 2 ^ 53 →
  v = f_of_int (Z_sum zs).
Proof.
  induction 1 as [|a|l1 l2 v1 v2 _ IH1 _ IH2|l l' v Hp _ IH];
    intros zs Hzs Hb.
  - destruct zs; [|done]. unfold f_of_int, Z_sum. cbn [foldr].
    by rewrite Z2Qc_inj_0.
  - destruct zs as [|z [|? ?]]; try done. injection Hzs as ->.
    unfold Z_sum. cbn [foldr]. by rewrite Z.add_0_r.
  - symmetry in Hzs. apply fmap_app_inv in Hzs as (z1 & z2 & -> & -> & ->).
    rewrite Z_abs_sum_app in Hb.
    pose proof (Z_abs_sum_nonneg z1). pose proof (Z_abs_sum_nonneg z2).
    pose proof (Z_sum_abs z1). pose proof (Z_sum_abs z2).
    rewrite (IH1 z1), (IH2 z2) by (done || lia).
    rewrite Z_sum_app. apply b64_add_of_int. lia.
  - subst l'. change (f_of_int <$> zs) with (map f_of_int zs) in Hp.
    apply Permutation_map_inv in Hp as (zs' & -> & Hp').
    rewrite (Z_sum_Permutation _ _ Hp'). apply IH; [done|].
    by rewrite <- (Z_abs_sum_Permutation _ _ Hp').
Qed.

Lemma np_sum_b64_ints zs :
  Z_abs_sum zs <= 2 ^ 53 →
  np_sum_b64 (f_of_int <$> zs) = f_of_int (Z_sum zs).
Proof.
  intros H. by apply (sum_of_ints _ _ (np_sum_b64_sum_of _) zs).
Qed.

(** ** [gini_coefficient] in binary64 *)

(** *** Permutations of the input *)

(** Past the guard the function works on the sorted array: two orders of
    the same values give the same result as soon as the guard decides the
    same for both. *)
Lemma gini_coefficient_b64_same_guard x y :
  x ≡ₚ y →
  f_eqb (np_sum_b64 (rounded <$> x)) f_zero
  = f_eqb (np_sum_b64 (rounded <$> y)) f_zero →
  gini_coefficient_b64 x = gini_coefficient_b64 y.
Proof.
  intros Hp Hg. unfold gini_coefficient_b64. cbv zeta.
  rewrite Hg, !length_fmap, (Permutation_length Hp).
  by rewrite (np_sort_unique (rounded <$> x) (rounded <$> y))
    by (by apply fmap_Permutation).
Qed.

(** Without negative values the guard does not depend on the order: the
    sum is [NaN] when a value is, and otherwise it is 0 only when every
    value is. *)
Lemma np_sum_b64_guard_nonneg x y :
  x ≡ₚ y → Forall (f_le f_zero) x →
  f_eqb (np_sum_b64 (rounded <$> x)) f_zero
  = f_eqb (np_sum_b64 (rounded <$> y)) f_zero.
Proof.
  intros Hp Hx.
  assert (Hy : Forall (f_le f_zero) y) by (by rewrite <- Hp).
  destruct (decide (NaN ∈ x)) as [Hnan|Hnan].
  - assert (NaN ∈ y) as Hnan' by (by rewrite <- Hp).
    rewrite (sum_of_NaN _ _ (np_sum_b64_sum_of (rounded <$> x))),
      (sum_of_NaN _ _ (np_sum_b64_sum_of (rounded <$> y))); [done| |].
    + apply list_elem_of_fmap. by exists NaN.
    + apply list_elem_of_fmap. by exists NaN.
  - assert (Hnan' : NaN ∉ y) by (by rewrite <- Hp).
    assert (Hnn : ∀ l, Forall (f_le f_zero) l → NaN ∉ l →
                       Forall b64_nonneg (rounded <$> l)).
    { intros l Hl Hn. apply Forall_fmap, Forall_forall. intros a Ha.
      rewrite Forall_forall in Hl. apply b64_nonneg_rounded; [by apply Hl|].
      by intros ->. }
    destruct (sum_of_nonneg _ _ (np_sum_b64_sum_of (rounded <$> x))
                (Hnn x Hx Hnan)) as [_ Ex].
    destruct (sum_of_nonneg _ _ (np_sum_b64_sum_of (rounded <$> y))
                (Hnn y Hy Hnan')) as [_ Ey].
    assert (E : np_sum_b64 (rounded <$> x) = f_zero
                ↔ np_sum_b64 (rounded <$> y) = f_zero).
    { rewrite Ex, Ey. by rewrite Hp. }
    rewrite <- !f_eqb_zero in E.
    destruct (f_eqb (np_sum_b64 (rounded <$> x)) f_zero),
      (f_eqb (np_sum_b64 (rounded <$> y)) f_zero); try done.
    + by destruct (proj1 E).
    + by destruct (proj2 E).
Qed.

(** C10. A list and a permutation of it get the same result whenever the
    guard [np.sum(x) == 0], which is evaluated on the unsorted array,
    decides the same for both; in particular whenever the list has no
    negative value. *)
Theorem gini_coefficient_b64_Permutation :
  (∀ x y,
      x ≡ₚ y →
      f_eqb (np_sum_b64 (rounded <$> x)) f_zero
      = f_eqb (np_sum_b64 (rounded <$> y)) f_zero →
      gini_coefficient_b64 x = gini_coefficient_b64 y)
  ∧ (∀ x y,
      x ≡ₚ y → Forall (f_le f_zero) x →
      gini_coefficient_b64 x = gini_coefficient_b64 y).
Proof.
  split; [exact gini_coefficient_b64_same_guard|].
  intros x y Hp Hx. apply gini_coefficient_b64_same_guard; [done|].
  by apply np_sum_b64_guard_nonneg.
Qed.

(** *** Whole-number areas *)

Lemma f_of_int_le z z' : z <= z' → f_le (f_of_int z) (f_of_int z').
Proof. intros H. cbn [f_le f_of_int]. by apply (proj1 (Z2Qc_inj_le _ _)). Qed.

Lemma f_of_int_inj z z' : f_of_int z = f_of_int z' → z = z'.
Proof.
  unfold f_of_int. intros E. apply Z2Qc_inj.
  change (match Fin (Qc_of_Z z) with Fin v => v | _ => 0%Qc end
          = Qc_of_Z z').
  by rewrite E.
Qed.

Lemma np_sort_ints zs :
  np_sort (f_of_int <$> zs) = f_of_int <$> merge_sort Z.le zs.
Proof.
  apply (StronglySorted_unique f_le).
  - apply np_sort_sorted.
  - pose proof (StronglySorted_merge_sort Z.le zs) as Hs.
    induction Hs as [|a l _ IH Ha]; [constructor|].
    cbn [fmap list_fmap]. constructor; [done|].
    apply Forall_fmap. eapply Forall_impl; [exact Ha|].
    intros b Hb. by apply f_of_int_le.
  - rewrite np_sort_Permutation. apply fmap_Permutation.
    symmetry. apply merge_sort_Permutation.
Qed.

Lemma Z_sum_elem zs z : Forall (Z.le 0) zs → z ∈ zs → z <= Z_sum zs.
Proof.
  unfold Z_sum. induction 1 as [|a l Ha Hl IH]; [by intros ?%not_elem_of_nil|].
  assert (0 <= foldr Z.add 0 l).
  { clear IH. induction Hl; cbn [foldr]; lia. }
  cbn [foldr]. intros [->|H']%elem_of_cons; [lia|]. specialize (IH H'). lia.
Qed.

Lemma Z_sum_nonneg zs : Forall (Z.le 0) zs → 0 <= Z_sum zs.
Proof. unfold Z_sum. induction 1; cbn [foldr]; lia. Qed.

Lemma Z_abs_sum_nonneg_eq zs : Forall (Z.le 0) zs → Z_abs_sum zs = Z_sum zs.
Proof. unfold Z_sum, Z_abs_sum. induction 1; cbn [foldr]; lia. Qed.

Lemma Z_sum_pos zs : zs ≠ [] → Forall (Z.lt 0) zs → 0 < Z_sum zs.
Proof.
  intros Hne H. destruct H as [|a l Ha Hl]; [done|].
  assert (0 <= Z_sum l).
  { apply Z_sum_nonneg. eapply Forall_impl; [exact Hl|]. intros; lia. }
  unfold Z_sum in *. cbn [foldr]. lia.
Qed.

(** The products of the weights and the sorted values. *)
Lemma weights_Z_rank_terms n k zs :
  1 <= k → k + Z.of_nat (length zs) <= n + 1 → n <= 2 ^ 53 →
  Forall (fun z => 0 <= z ∧ n * z <= 2 ^ 53) zs →
  zip_with b64_mul
    ((fun i => b64_of_int (2 * i - n - 1))
       <$> np_arange k (k + Z.of_nat (length zs)))
    (f_of_int <$> zs)
  = f_of_int <$> Z_rank_terms n k zs.
Proof.
  intros Hk Hlen Hn Hall. revert k Hk Hlen.
  induction Hall as [|z zs [Hz Hnz] _ IH]; intros k Hk Hlen.
  - simpl. by rewrite Z.add_0_r, np_arange_nil by lia.
  - rewrite np_arange_cons by (simpl length; lia).
    replace (k + Z.of_nat (length (z :: zs)))
      with (k + 1 + Z.of_nat (length zs)) by (simpl length; lia).
    cbn [fmap list_fmap zip_with Z_rank_terms].
    simpl length in Hlen. rewrite IH by lia. f_equal.
    unfold b64_of_int. rewrite rounded_of_int by lia.
    apply b64_mul_of_int. nia.
Qed.

Lemma Z_rank_terms_abs_sum n k zs :
  1 <= k → k + Z.of_nat (length zs) <= n + 1 → Forall (Z.le 0) zs →
  Z_abs_sum (Z_rank_terms n k zs) <= (n - 1) * Z_sum zs.
Proof.
  intros Hk Hlen Hall. revert k Hk Hlen.
  induction Hall as [|z zs Hz _ IH]; intros k Hk Hlen.
  - unfold Z_abs_sum, Z_sum. cbn. lia.
  - simpl length in Hlen. specialize (IH (k + 1) ltac:(lia) ltac:(lia)).
    unfold Z_abs_sum, Z_sum in *. cbn [Z_rank_terms foldr]. nia.
Qed.

Lemma Qc_rank_sum_of_Z n k zs :
  Qc_rank_sum n k (Qc_of_Z <$> zs)
  = Qc_of_Z (Z_sum (Z_rank_terms n k zs)).
Proof.
  revert k. unfold Z_sum.
  induction zs as [|z zs IH]; intros k;
    cbn [fmap list_fmap Qc_rank_sum Z_rank_terms foldr].
  - by rewrite Z2Qc_inj_0.
  - by rewrite IH, Z2Qc_inj_add, Z2Qc_inj_mul.
Qed.

(** A quotient of whole numbers, as a fraction. *)
Lemma Qc_of_Z_div (a b : Z) :
  0 < b → (Qc_of_Z a / Qc_of_Z b)%Qc = Q2Qc (a # Z.to_pos b).
Proof.
  intros Hb. apply Qc_is_canon. unfold Qcdiv, Qcmult, Qcinv.
  cbn [this Q2Qc]. rewrite !Qred_correct.
  destruct b as [|b|b]; try lia.
  unfold Qeq, Qmult, Qinv, inject_Z. cbn. lia.
Qed.

(** On whole-number areas that are small enough, every operation before
    the final division is exact. *)
Lemma gini_coefficient_b64_ints (zs : list Z) :
  (2 <= length zs)%nat → Forall (Z.lt 0) zs →
  Z.of_nat (length zs) * Z_sum zs <= 2 ^ 53 →
  let n := Z.of_nat (length zs) in
  let N := Z_sum (Z_rank_terms n 1 (merge_sort Z.le zs)) in
  gini_coefficient_b64 (f_of_int <$> zs)
  = round_b64 (Q2Qc (N # Z.to_pos (n * Z_sum zs)))
  ∧ 0 < n * Z_sum zs ∧ N <= (n - 1) * Z_sum zs.
Proof.
  intros Hlen Hpos Hbound n N.
  assert (Hnn : Forall (Z.le 0) zs).
  { eapply Forall_impl; [exact Hpos|]. intros; lia. }
  assert (HS : 0 < Z_sum zs).
  { apply Z_sum_pos; [|done]. intros ->. simpl in Hlen. lia. }
  assert (Hn : 2 <= n) by (unfold n; lia).
  set (sorted := merge_sort Z.le zs) in *.
  assert (Hperm : sorted ≡ₚ zs) by apply merge_sort_Permutation.
  assert (HS' : Z_sum sorted = Z_sum zs) by (by apply Z_sum_Permutation).
  assert (Hlen' : length sorted = length zs) by (by rewrite Hperm).
  assert (Hnn' : Forall (Z.le 0) sorted) by (by rewrite Hperm).
  assert (Hsmall : ∀ z, z ∈ zs → 0 <= z ∧ n * z <= 2 ^ 53).
  { intros z Hz. pose proof (Z_sum_elem zs z Hnn Hz).
    rewrite Forall_forall in Hnn. specialize (Hnn z Hz). nia. }
  assert (Hterms : Z_abs_sum (Z_rank_terms n 1 sorted) <= (n - 1) * Z_sum zs).
  { rewrite <- HS'. apply Z_rank_terms_abs_sum; [lia| |done].
    rewrite Hlen'. unfold n. lia. }
  assert (HN : N <= (n - 1) * Z_sum zs).
  { pose proof (Z_sum_abs (Z_rank_terms n 1 sorted)). unfold N. lia. }
  split; [|split; [nia|done]].
  unfold gini_coefficient_b64. cbv zeta.
  assert (rounded <$> (f_of_int <$> zs) = f_of_int <$> zs) as ->.
  { rewrite <- list_fmap_compose. apply list_fmap_ext.
    intros _ z Hz%list_elem_of_lookup_2. cbn [compose].
    apply rounded_of_int. destruct (Hsmall z Hz). nia. }
  rewrite length_fmap, bool_decide_eq_false_2 by lia.
  rewrite np_sum_b64_ints by (rewrite Z_abs_sum_nonneg_eq by done; nia).
  destruct (f_eqb (f_of_int (Z_sum zs)) f_zero) eqn:E.
  { apply f_eqb_zero in E. unfold f_zero in E. rewrite <- Z2Qc_inj_0 in E.
    apply (f_of_int_inj _ 0) in E. lia. }
  cbn [orb]. rewrite np_sort_ints. fold sorted.
  rewrite length_fmap, Hlen'. fold n.
  replace (n + 1) with (1 + Z.of_nat (length sorted))
    by (rewrite Hlen'; unfold n; lia).
  rewrite (weights_Z_rank_terms n 1 sorted).
  - rewrite np_sum_b64_ints by nia. fold N.
    rewrite np_sum_b64_ints by (rewrite Z_abs_sum_nonneg_eq by done; nia).
    rewrite HS'. unfold b64_of_int. rewrite rounded_of_int by nia.
    rewrite b64_mul_of_int by nia.
    unfold b64_div, f_of_int. cbn [f_div].
    rewrite decide_False.
    + cbn [rounded]. by rewrite Qc_of_Z_div by nia.
    + rewrite <- Z2Qc_inj_0. intros E'%Z2Qc_inj. nia.
  - lia.
  - rewrite Hlen'. unfold n. lia.
  - nia.
  - apply Forall_forall. intros z Hz. apply Hsmall. by rewrite <- Hperm.
Qed.

Lemma Z_sum_replicate n v : Z_sum (replicate n v) = Z.of_nat n * v.
Proof.
  unfold Z_sum. induction n as [|n IH]; [done|].
  cbn [replicate foldr]. rewrite IH. lia.
Qed.

Lemma StronglySorted_Qc_of_Z l :
  StronglySorted Z.le l → StronglySorted Qcle (Qc_of_Z <$> l).
Proof.
  induction 1 as [|a l _ IH Ha]; [constructor|].
  cbn [fmap list_fmap]. constructor; [done|].
  apply Forall_fmap. eapply Forall_impl; [exact Ha|].
  intros b Hb. by apply (proj1 (Z2Qc_inj_le _ _)).
Qed.

Lemma round_b64_small_quotient (N D : Z) :
  1 <= N → 0 < D → D <= 2 ^ 53 → N * 2 ^ 53 <= (2 ^ 53 - 1) * D →
  ∃ g : Qc, round_b64 (Q2Qc (N # Z.to_pos D)) = Fin g
            ∧ (0 < g)%Qc ∧ (g < 1)%Qc.
Proof.
  intros HN HD HD' Hup.
  set (lo := Q2Qc (1 # 2 ^ 53)). set (hi := Q2Qc ((2 ^ 53 - 1) # 2 ^ 53)).
  set (q := Q2Qc (N # Z.to_pos D)).
  assert (Elo : round_b64 lo = Fin lo).
  { apply (round_b64_exact lo (1 * 2 ^ 1021)).
    - exists 1, 1021. lia.
    - done.
    - by vm_compute. }
  assert (Ehi : round_b64 hi = Fin hi).
  { apply (round_b64_exact hi ((2 ^ 53 - 1) * 2 ^ 1021)).
    - exists (2 ^ 53 - 1), 1021. lia.
    - done.
    - by vm_compute. }
  assert (Hlo : (lo <= q)%Qc).
  { unfold Qcle, lo, q. cbn [this Q2Qc]. rewrite !Qred_correct.
    unfold Qle. cbn [Qnum Qden]. rewrite Z2Pos.id by done.
    rewrite Pos2Z.inj_pow. change (Z.pos 2 ^ Z.pos 53) with (2 ^ 53). lia. }
  assert (Hhi : (q <= hi)%Qc).
  { unfold Qcle, hi, q. cbn [this Q2Qc]. rewrite !Qred_correct.
    unfold Qle. cbn [Qnum Qden]. rewrite Z2Pos.id by done.
    rewrite Pos2Z.inj_pow. change (Z.pos 2 ^ Z.pos 53) with (2 ^ 53). lia. }
  apply round_b64_mono in Hlo.
  apply round_b64_mono in Hhi.
  rewrite Elo in Hlo. rewrite Ehi in Hhi.
  destruct (round_b64 q) as [g| | |]; cbn [f_le] in Hlo, Hhi;
    try contradiction.
  exists g. split; [done|]. split.
  - eapply Qclt_le_trans; [|exact Hlo]. done.
  - eapply Qcle_lt_trans; [exact Hhi|]. done.
Qed.



(** C10, as the specification states it, fails in binary64: the guard sums
    the unsorted array, and [1e17 + 1 + 1 - 1e17] is 0 while
    [1 + 1e17 - 1e17 + 1] is 1. *)
Lemma gini_coefficient_b64_order_dependent :
  let x := f_of_int <$> [10 ^ 17; 1; 1; - 10 ^ 17] in
  let y := f_of_int <$> [1; 10 ^ 17; - 10 ^ 17; 1] in
  x ≡ₚ y
  ∧ gini_coefficient_b64 x = f_zero
  ∧ gini_coefficient_b64 y = PInf.
Proof.
  cbv zeta. split; [|split].
  - apply fmap_Permutation.
    change ([10 ^ 17; 1] ++ [1; - 10 ^ 17] ≡ₚ [1; 10 ^ 17] ++ [- 10 ^ 17; 1]).
    apply Permutation_app; apply perm_swap.
  - vm_compute. apply (f_equal Fin), Qc_is_canon. reflexivity.
  - by vm_compute.
Qed.

Lemma gini_coefficient_b64_Permutation_witness :
  gini_coefficient_b64 (f_of_int <$> [300; 100; 200])
  = gini_coefficient_b64 (f_of_int <$> [100; 200; 300]).
Proof.
  destruct gini_coefficient_b64_Permutation as [_ Hnonneg].
  apply Hnonneg.
  - apply fmap_Permutation.
    change ([300] ++ [100; 200] ≡ₚ [100; 200] ++ [300]).
    apply Permutation_app_comm.
  - repeat constructor; by vm_compute.
Defined.

(** ** Frames on the heap *)

Section TableFacts.
Context {polygon : Type} (area : polygon -> float64).
Implicit Types (h : heap polygon) (r : row polygon).
Implicit Types (rows : list (row polygon)).

Lemma zip_with_set_feature name (f : row polygon -> float64) rows :
  zip_with (set_feature name) (f <$> rows) rows
  = (fun r => set_feature name (f r) r) <$> rows.
Proof. induction rows as [|r rows IH]; [done|]. cbn. by rewrite <- IH. Qed.

Lemma read_frame_run h l rows :
  h !! l = Some rows → read_frame l h = Some (rows, h).
Proof. intros Hl. unfold read_frame. by rewrite Hl. Qed.

Lemma set_column_run h l name (f : row polygon -> float64) rows :
  h !! l = Some rows →
  set_column l name (f <$> rows) h
  = Some (tt, <[l := (fun r => set_feature name (f r) r) <$> rows]> h).
Proof.
  intros Hl. unfold set_column. rewrite Hl.
  rewrite decide_True by by rewrite length_fmap.
  by rewrite zip_with_set_feature.
Qed.

Lemma read_frame_insert h l rows :
  read_frame l (<[l := rows]> h) = Some (rows, <[l := rows]> h).
Proof. apply read_frame_run, lookup_insert_eq. Qed.

Lemma set_column_insert h l name (f : row polygon -> float64) rows :
  set_column l name (f <$> rows) (<[l := rows]> h)
  = Some (tt, <[l := (fun r => set_feature name (f r) r) <$> rows]> h).
Proof.
  rewrite (set_column_run _ l name f rows) by apply lookup_insert_eq.
  by rewrite insert_insert_eq.
Qed.

(** [add_geo_features] rewrites the frame it is given, row by row, and
    returns the reference it was given. *)
Lemma add_geo_features_run h l rows :
  h !! l = Some rows →
  add_geo_features polygon area l h
  = Some (l, <[l := add_geo_row area <$> rows]> h).
Proof.
  intros Hl. unfold add_geo_features, bind.
  rewrite (read_frame_run _ _ _ Hl), (set_column_run _ _ _ _ _ Hl).
  rewrite read_frame_insert, set_column_insert.
  rewrite read_frame_insert, set_column_insert.
  unfold ret. do 3 f_equal.
  rewrite <- !list_fmap_compose. by apply list_fmap_ext.
Qed.

(** The fields of a row after [add_geo_features]. *)
Lemma add_geo_row_fields r :
  city (add_geo_row area r) = city r
  ∧ geometry_col (add_geo_row area r) = geometry_col r
  ∧ total_lot_area (add_geo_row area r) = total_lot_area r
  ∧ num_lots (add_geo_row area r) = num_lots r
  ∧ boundary_area (add_geo_row area r) = boundary_area r.
Proof. done. Qed.

Lemma add_geo_row_features r :
  features (add_geo_row area r) !! "pct_lot_area"
  = Some (total_lot_area r / boundary_area r)%f64
  ∧ features (add_geo_row area r) !! "lots_per_sq_km"
    = Some (f_of_int (1000 * num_lots r) / boundary_area r)%f64
  ∧ features (add_geo_row area r) !! "avg_lot_area"
    = Some (mean_lot_area polygon area (geometry_col r) / f_of_int 1000)%f64.
Proof. unfold add_geo_row, set_feature; cbn [features]. by simplify_map_eq. Qed.

Lemma add_geo_row_other_features r name :
  name ≠ "pct_lot_area" → name ≠ "lots_per_sq_km" → name ≠ "avg_lot_area" →
  features (add_geo_row area r) !! name = features r !! name.
Proof.
  intros. unfold add_geo_row, set_feature; cbn [features].
  by rewrite !lookup_insert_ne.
Qed.

(** ** Arithmetic facts the table properties need *)

Lemma f_add_zero_r a : (a + f_zero)%f64 = a.
Proof. by rewrite (comm_L f_add), f_add_zero_l. Qed.

Lemma f_div_one a : (a / f_of_int 1)%f64 = a.
Proof.
  destruct a as [x| | |]; try done.
  cbn [f_div f_of_int]. rewrite decide_False by done.
  f_equal. rewrite Z2Qc_inj_1. field. done.
Qed.

Lemma f_of_int_mul a b : f_of_int (a * b) = (f_of_int a * f_of_int b)%f64.
Proof. unfold f_of_int. cbn [f_mul]. by rewrite Z2Qc_inj_mul. Qed.

(** Nothing divided by zero is finite. *)
Lemma f_div_zero_not_finite a : is_finite (a / f_zero) = false.
Proof.
  destruct a as [x| | |]; try done.
  - cbn. unfold inf_signed. by destruct (x ?= 0)%Qc.
Qed.

(** The mean the program takes is the mean over the constituent
    polygons, whichever the shape of the geometry. *)
Lemma mean_lot_area_constituents (g : geometry polygon) :
  mean_lot_area polygon area g = np_mean (area <$> constituent_polygons g).
Proof.
  destruct g as [p|ps]; [|done].
  unfold np_mean, np_sum. cbn [mean_lot_area constituent_polygons fmap list_fmap foldr length].
  by rewrite f_add_zero_r, f_div_one.
Qed.
End TableFacts.

(** ** [load_lot_data] and [main] *)

Section MainFacts.
Context {polygon : Type} (area : polygon -> float64).
Context (to_crs : polygon -> polygon).
Context (mbr_exterior_xy : polygon -> option (list float64 * list float64)).
Context (arctan2 : float64 -> float64 -> float64).
Context (degrees log : float64 -> float64).
Implicit Types (h : heap polygon) (r : row polygon).
Implicit Types (rows : list (row polygon)).

Local Abbreviation lot_table' := (lot_table polygon area to_crs).
Local Abbreviation load_lot_data' := (load_lot_data polygon area to_crs).
Local Abbreviation get_orientation' :=
  (get_orientation polygon mbr_exterior_xy arctan2 degrees).
Local Abbreviation entropy_of_geometry' :=
  (entropy_of_geometry polygon mbr_exterior_xy arctan2 degrees log).
Local Abbreviation main' :=
  (main polygon area to_crs mbr_exterior_xy arctan2 degrees log).

Lemma load_lot_data_run lots boundaries h :
  load_lot_data' (Some lots) (Some boundaries) h
  = Some (Some (fresh (dom h)),
          <[fresh (dom h) := lot_table' lots boundaries]> h).
Proof. done. Qed.

Lemma load_lot_data_missing lots_file boundaries_file h :
  lots_file = None ∨ boundaries_file = None →
  load_lot_data' lots_file boundaries_file h = Some (None, h).
Proof. intros [-> | ->]; [done|]. by destruct lots_file. Qed.

Lemma mapM_geometry_col {B} (e : geometry polygon -> option B)
    (g : row polygon -> row polygon) rows :
  (∀ r, geometry_col (g r) = geometry_col r) →
  mapM (fun r => e (geometry_col r)) (g <$> rows)
  = mapM (fun r => e (geometry_col r)) rows.
Proof.
  intros Hg. induction rows as [|r rows IH]; [done|].
  cbn. by rewrite Hg, IH.
Qed.

(** [main] as a function of the two files: the merged table, with the
    five feature columns, provided every orientation can be computed. *)
Lemma main_run lots boundaries h :
  main' (Some lots) (Some boundaries) h
  = (entropies ← mapM (fun r => entropy_of_geometry' (geometry_col r))
                   (lot_table' lots boundaries);
     let out := main_rows area (lot_table' lots boundaries) entropies in
     Some (out, <[fresh (dom h) := out]> h)).
Proof.
  unfold main. unfold bind at 1. rewrite load_lot_data_run.
  unfold bind at 1. cbn [lift_option ret].
  unfold bind at 1.
  rewrite (add_geo_features_run area _ _ (lot_table' lots boundaries))
    by apply lookup_insert_eq.
  rewrite insert_insert_eq.
  unfold bind at 1. rewrite read_frame_insert.
  unfold bind at 1. rewrite set_column_insert.
  unfold bind at 1. rewrite read_frame_insert.
  unfold bind at 1.
  rewrite (mapM_geometry_col _ (fun r => set_feature "gini_coef" _ r)) by done.
  rewrite (mapM_geometry_col _ (add_geo_row area)) by done.
  destruct (mapM _ (lot_table' lots boundaries)) as [entropies|] eqn:E;
    [|done].
  cbn [lift_option ret mbind option_bind].
  unfold bind, set_column. rewrite lookup_insert_eq.
  apply length_mapM in E.
  rewrite decide_True by (by rewrite !length_fmap).
  rewrite insert_insert_eq, read_frame_insert. done.
Qed.

(** A row of the table [main] writes comes from a row of the merged
    table, with the same fields and the ratio columns of
    [add_geo_features]. *)
Lemma main_rows_elem rows entropies r' :
  r' ∈ main_rows area rows entropies →
  ∃ r, r ∈ rows
       ∧ city r' = city r ∧ geometry_col r' = geometry_col r
       ∧ total_lot_area r' = total_lot_area r ∧ num_lots r' = num_lots r
       ∧ boundary_area r' = boundary_area r
       ∧ features r' !! "pct_lot_area"
         = Some (total_lot_area r / boundary_area r)%f64
       ∧ features r' !! "lots_per_sq_km"
         = Some (f_of_int (1000 * num_lots r) / boundary_area r)%f64.
Proof.
  unfold main_rows. intros (e & r0 & -> & _ & Hr0)%elem_of_zip_with.
  apply list_elem_of_fmap in Hr0 as (r1 & -> & Hr1).
  apply list_elem_of_fmap in Hr1 as (r & -> & Hr).
  exists r. split; [done|]. repeat (split; [done|]).
  unfold gini_row, add_geo_row, set_feature; cbn [features].
  by simplify_map_eq.
Qed.

(** [calculate_orientation_entropy] raises only if some orientation
    does. *)
Lemma entropy_of_geometry_is_Some (g : geometry polygon) :
  (∀ p, is_Some (get_orientation' p)) → is_Some (entropy_of_geometry' g).
Proof.
  intros Hall. destruct g as [p|ps]; [by eexists|].
  cbn [entropy_of_geometry]. unfold calculate_orientation_entropy.
  case_bool_decide; [by eexists|].
  destruct (mapM_is_Some_2 get_orientation' ps) as [angles ->].
  { apply Forall_forall. intros p _. apply Hall. }
  by eexists.
Qed.

Lemma main_returns lots boundaries h :
  (∀ p, is_Some (get_orientation' p)) →
  ∃ out, main' (Some lots) (Some boundaries) h
         = Some (out, <[fresh (dom h) := out]> h).
Proof.
  intros Hall. rewrite main_run.
  destruct (mapM_is_Some_2 (fun r => entropy_of_geometry' (geometry_col r))
              (lot_table' lots boundaries)) as [entropies ->].
  { apply Forall_forall. intros r _. by apply entropy_of_geometry_is_Some. }
  by eexists.
Qed.

(** *** The merge *)

Lemma merge_left_elem (lots : list (lot_feature polygon * float64 * Z))
    (boundaries : list (boundary_feature polygon * float64)) r :
  r ∈ merge_left lots boundaries ↔
  ∃ l total n,
    (l, total, n) ∈ lots
    ∧ city r = lot_id l ∧ geometry_col r = lot_geometry l
    ∧ total_lot_area r = total ∧ num_lots r = n ∧ features r = ∅
    ∧ ((boundary_area r = NaN
        ∧ ∀ b, b ∈ boundaries → boundary_id b.1 ≠ lot_id l)
       ∨ ∃ b, b ∈ boundaries ∧ boundary_id b.1 = lot_id l
              ∧ boundary_area r = b.2).
Proof.
  unfold merge_left. rewrite list_elem_of_bind. split.
  - intros ([[l total] n] & Hr & Hl). exists l, total, n. split; [done|].
    destruct (filter _ boundaries) as [|b0 matches] eqn:E.
    + apply list_elem_of_singleton in Hr as ->. repeat (split; [done|]).
      left. split; [done|]. intros b Hb Hid.
      assert (b ∈ filter (fun b => boundary_id b.1 = lot_id l) boundaries)
        as Hin by by apply list_elem_of_filter.
      rewrite E in Hin. by apply not_elem_of_nil in Hin.
    + apply list_elem_of_fmap in Hr as (b & -> & Hb).
      repeat (split; [done|]). right. exists b.
      rewrite <- E in Hb. apply list_elem_of_filter in Hb as [Hid Hb]. done.
  - intros (l & total & n & Hl & Hc & Hg & Ht & Hn & Hf & Hb).
    exists (l, total, n). split; [|done].
    destruct r as [c g t k ba fs]. simpl in *. subst.
    destruct Hb as [[-> Hnone] | (b & Hb & Hid & ->)].
    + destruct (filter _ boundaries) as [|b0 matches] eqn:E.
      * apply list_elem_of_singleton. done.
      * exfalso. assert (b0 ∈ filter (fun b => boundary_id b.1 = lot_id l)
                           boundaries) as Hin by (rewrite E; left).
        apply list_elem_of_filter in Hin as [Hid Hin]. by eapply Hnone.
    + assert (b ∈ filter (fun b => boundary_id b.1 = lot_id l) boundaries)
        as Hin by by apply list_elem_of_filter.
      destruct (filter _ boundaries) as [|b0 matches] eqn:E.
      * by apply not_elem_of_nil in Hin.
      * apply list_elem_of_fmap. by exists b.
Qed.

(** Every lot row is kept, with its own geometry. *)
Lemma lot_table_keeps_lots lots boundaries lf :
  lf ∈ lots →
  ∃ r, r ∈ lot_table' lots boundaries
       ∧ city r = lot_id lf
       ∧ geometry_col r = geom_to_crs polygon to_crs (lot_geometry lf).
Proof.
  intros Hlf. unfold lot_table.
  set (L := (fun l => (l, _, _)) <$> (lot_to_crs polygon to_crs <$> lots)).
  set (B := (fun b => (b, _)) <$> (boundary_to_crs polygon to_crs <$> boundaries)).
  set (l := lot_to_crs polygon to_crs lf).
  assert (HL : (l, geom_area polygon area (lot_geometry l),
                count_lots (lot_geometry l)) ∈ L).
  { apply list_elem_of_fmap. exists l. split; [done|].
    apply list_elem_of_fmap. by exists lf. }
  destruct (decide (Exists (fun b => boundary_id b.1 = lot_id l) B)) as [Hex|Hno].
  - apply Exists_exists in Hex as (b & Hb & Hid).
    exists (Row (lot_id l) (lot_geometry l) (geom_area polygon area (lot_geometry l))
              (count_lots (lot_geometry l)) b.2 ∅).
    split; [|done]. apply merge_left_elem.
    eexists _, _, _. split; [exact HL|]. repeat (split; [done|]).
    right. by exists b.
  - exists (Row (lot_id l) (lot_geometry l) (geom_area polygon area (lot_geometry l))
              (count_lots (lot_geometry l)) NaN ∅).
    split; [|done]. apply merge_left_elem.
    eexists _, _, _. split; [exact HL|]. repeat (split; [done|]).
    left. split; [done|]. intros b Hb Hid. apply Hno, Exists_exists. by exists b.
Qed.

(** Every row of the merged table is a lot row: its key and its geometry
    are those of a lot feature. *)
Lemma lot_table_from_lots lots boundaries r :
  r ∈ lot_table' lots boundaries →
  ∃ lf, lf ∈ lots
        ∧ city r = lot_id lf
        ∧ geometry_col r = geom_to_crs polygon to_crs (lot_geometry lf).
Proof.
  unfold lot_table. intros (l & total & n & Hl & Hc & Hg & _)%merge_left_elem.
  apply list_elem_of_fmap in Hl as (l' & [= -> _ _] & Hl').
  apply list_elem_of_fmap in Hl' as (lf & -> & Hlf).
  by exists lf.
Qed.

(** A key without a boundary row gets [NaN] for the boundary area. *)
Lemma lot_table_unmatched lots boundaries r :
  r ∈ lot_table' lots boundaries →
  city r ∉ boundary_id <$> boundaries →
  boundary_area r = NaN.
Proof.
  unfold lot_table.
  intros (l & total & n & Hl & Hc & _ & _ & _ & _ & Hb)%merge_left_elem Hnot.
  destruct Hb as [[-> _] | (b & Hb & Hid & _)]; [done|].
  exfalso. apply Hnot.
  apply list_elem_of_fmap in Hb as (b' & -> & Hb').
  apply list_elem_of_fmap in Hb' as (bf & -> & Hbf).
  apply list_elem_of_fmap. exists bf. split; [|done].
  simpl in Hid. congruence.
Qed.

(** *** The claims about the tables *)

(** C1 (as amended). The merge keeps the lot regions: every key of the lot
    dataset has a record in the table [load_lot_data] builds; a record
    whose key is absent from the boundary dataset has [NaN] as its
    boundary area; and every record's key is a key of the lot dataset, so
    that a boundary region without lots has no record. *)
Theorem load_lot_data_keeps_lot_regions lots boundaries h :
  ∃ l table,
    load_lot_data polygon area to_crs (Some lots) (Some boundaries) h
    = Some (Some l, <[l := table]> h)
    ∧ (∀ lf, lf ∈ lots → ∃ r, r ∈ table ∧ city r = lot_id lf)
    ∧ (∀ r, r ∈ table → city r ∉ boundary_id <$> boundaries →
            boundary_area r = NaN)
    ∧ (∀ r, r ∈ table → city r ∈ lot_id <$> lots).
Proof.
  eexists _, _. split; [apply load_lot_data_run|]. split; [|split].
  - intros lf Hlf.
    destruct (lot_table_keeps_lots lots boundaries lf Hlf) as (r & ? & ? & _).
    by exists r.
  - apply lot_table_unmatched.
  - intros r (lf & Hlf & -> & _)%lot_table_from_lots.
    apply list_elem_of_fmap. by exists lf.
Qed.

(** C3. [add_geo_features] sets, on every record, [pct_lot_area] to the
    total lot area over the boundary area, [lots_per_sq_km] to 1000 times
    the number of lots over the boundary area, and [avg_lot_area] to the
    mean area of the constituent polygons over 1000; on the reference
    record (boundary area 1,000,000, two lots of areas 100 and 300) these
    are 0.0004, 0.002 and 0.2. *)
Theorem add_geo_features_values :
  (∀ h l rows,
      h !! l = Some rows →
      ∃ rows',
        add_geo_features polygon area l h = Some (l, <[l := rows']> h)
        ∧ Forall2 (fun r r' =>
            features r' !! "pct_lot_area"
            = Some (total_lot_area r / boundary_area r)%f64
            ∧ features r' !! "lots_per_sq_km"
              = Some (f_of_int 1000 * f_of_int (num_lots r)
                      / boundary_area r)%f64
            ∧ features r' !! "avg_lot_area"
              = Some (np_mean (area <$> constituent_polygons (geometry_col r))
                      / f_of_int 1000)%f64)
            rows rows')
  ∧ (∀ h l r p1 p2,
      h !! l = Some [r] →
      boundary_area r = f_of_int 1000000 →
      geometry_col r = MultiPolygon [p1; p2] →
      area p1 = f_of_int 100 → area p2 = f_of_int 300 →
      total_lot_area r = f_of_int 400 → num_lots r = 2 →
      ∃ r',
        add_geo_features polygon area l h = Some (l, <[l := [r']]> h)
        ∧ features r' !! "pct_lot_area" = Some (Fin (Q2Qc 0.0004))
        ∧ features r' !! "lots_per_sq_km" = Some (Fin (Q2Qc 0.002))
        ∧ features r' !! "avg_lot_area" = Some (Fin (Q2Qc 0.2))).
Proof.
  split.
  - intros h l rows Hl. exists (add_geo_row area <$> rows).
    split; [by apply add_geo_features_run|].
    apply Forall2_fmap_r, Forall_Forall2_diag, Forall_forall. intros r _.
    unfold compose; cbv beta.
    destruct (add_geo_row_features area r) as (-> & -> & ->).
    by rewrite f_of_int_mul, mean_lot_area_constituents.
  - intros h l r p1 p2 Hl Hb Hg Hp1 Hp2 Ht Hn.
    exists (add_geo_row area r).
    split; [by apply (add_geo_features_run area h l [r])|].
    destruct (add_geo_row_features area r) as (-> & -> & ->).
    rewrite Hb, Hg, Ht, Hn. cbn [mean_lot_area fmap list_fmap].
    unfold np_mean, np_sum. cbn [foldr length]. rewrite Hp1, Hp2.
    repeat split; f_equal; vm_compute; f_equal; apply Qc_is_canon; reflexivity.
Qed.

(** C4 (as amended). The geometry a record carries is the lot geometry of
    its region, reprojected: in the table [load_lot_data] builds and in
    the table [main] writes. *)
Theorem output_geometry_is_lot_geometry lots boundaries h :
  (∃ l table,
      load_lot_data polygon area to_crs (Some lots) (Some boundaries) h
      = Some (Some l, <[l := table]> h)
      ∧ ∀ r, r ∈ table →
             ∃ lf, lf ∈ lots ∧ city r = lot_id lf
                   ∧ geometry_col r
                     = geom_to_crs polygon to_crs (lot_geometry lf))
  ∧ (∀ out h',
      main polygon area to_crs mbr_exterior_xy arctan2 degrees log
        (Some lots) (Some boundaries) h = Some (out, h') →
      ∀ r, r ∈ out →
           ∃ lf, lf ∈ lots ∧ city r = lot_id lf
                 ∧ geometry_col r
                   = geom_to_crs polygon to_crs (lot_geometry lf)).
Proof.
  split.
  - eexists _, _. split; [apply load_lot_data_run|].
    apply lot_table_from_lots.
  - intros out h'. rewrite main_run.
    destruct (mapM _ _) as [entropies|]; [|done].
    intros [= <- _] r' (r & Hr & -> & -> & _)%main_rows_elem.
    by apply lot_table_from_lots in Hr.
Qed.

(** C5 (as amended). [add_geo_features] works in place: it returns the
    reference it was given, the frame behind that reference is replaced,
    every other frame is untouched; in the frame, each record keeps its
    fields and every feature column other than the three it assigns, and
    gains those three. *)
Theorem add_geo_features_in_place h l rows :
  h !! l = Some rows →
  ∃ rows',
    add_geo_features polygon area l h = Some (l, <[l := rows']> h)
    ∧ Forall2 (fun r r' =>
        city r' = city r ∧ geometry_col r' = geometry_col r
        ∧ total_lot_area r' = total_lot_area r ∧ num_lots r' = num_lots r
        ∧ boundary_area r' = boundary_area r
        ∧ (∀ name, name ≠ "pct_lot_area" → name ≠ "lots_per_sq_km" →
                   name ≠ "avg_lot_area" →
                   features r' !! name = features r !! name)
        ∧ is_Some (features r' !! "pct_lot_area")
        ∧ is_Some (features r' !! "lots_per_sq_km")
        ∧ is_Some (features r' !! "avg_lot_area"))
        rows rows'.
Proof.
  intros Hl. exists (add_geo_row area <$> rows).
  split; [by apply add_geo_features_run|].
  apply Forall2_fmap_r, Forall_Forall2_diag, Forall_forall. intros r _.
    unfold compose; cbv beta.
  repeat (split; [done|]). split; [apply add_geo_row_other_features|].
  destruct (add_geo_row_features area r) as (-> & -> & ->). by repeat split.
Qed.

(** C9. A record whose boundary area is 0 gets non-finite values for
    [pct_lot_area] and [lots_per_sq_km] from [add_geo_features], and the
    table [main] writes carries them as they are: the columns are the
    quotients by the boundary area, and these are not finite. *)
Theorem zero_boundary_area_propagates :
  (∀ h l rows,
      h !! l = Some rows →
      ∃ rows',
        add_geo_features polygon area l h = Some (l, <[l := rows']> h)
        ∧ Forall2 (fun r r' =>
            boundary_area r = f_zero →
            ∃ pct density,
              features r' !! "pct_lot_area" = Some pct
              ∧ features r' !! "lots_per_sq_km" = Some density
              ∧ is_finite pct = false ∧ is_finite density = false)
            rows rows')
  ∧ (∀ lots boundaries h out h',
      main polygon area to_crs mbr_exterior_xy arctan2 degrees log
        (Some lots) (Some boundaries) h = Some (out, h') →
      ∀ r, r ∈ out → boundary_area r = f_zero →
           ∃ pct density,
             features r !! "pct_lot_area" = Some pct
             ∧ features r !! "lots_per_sq_km" = Some density
             ∧ pct = (total_lot_area r / boundary_area r)%f64
             ∧ density = (f_of_int (1000 * num_lots r) / boundary_area r)%f64
             ∧ is_finite pct = false ∧ is_finite density = false)
  ∧ (∀ lots boundaries h,
      (∀ p, is_Some (get_orientation polygon mbr_exterior_xy arctan2
                      degrees p)) →
      ∃ out h', main polygon area to_crs mbr_exterior_xy arctan2 degrees log
        (Some lots) (Some boundaries) h = Some (out, h')).
Proof.
  split; [|split].
  - intros h l rows Hl. exists (add_geo_row area <$> rows).
    split; [by apply add_geo_features_run|].
    apply Forall2_fmap_r, Forall_Forall2_diag, Forall_forall.
    intros r _. unfold compose; cbv beta. intros Hzero.
    destruct (add_geo_row_features area r) as (-> & -> & _).
    eexists _, _. repeat (split; [done|]).
    rewrite Hzero. split; apply f_div_zero_not_finite.
  - intros lots boundaries h out h'. rewrite main_run.
    destruct (mapM _ _) as [entropies|]; [|done].
    intros [= <- _] r'
      (r & _ & _ & _ & Ht & Hn & Hb & Hpct & Hdens)%main_rows_elem Hzero.
    rewrite Ht, Hn, Hb. eexists _, _. repeat (split; [done|]).
    rewrite <- Hb, Hzero. split; apply f_div_zero_not_finite.
  - intros lots boundaries h Hall.
    destruct (main_returns lots boundaries h Hall) as [out Hout].
    by eexists _, _.
Qed.
End MainFacts.

(** ** Orientation entropy *)

Lemma np_sum_zeros l : Forall (fun v => v = f_zero) l → np_sum l = f_zero.
Proof.
  induction 1 as [|v l -> _ IH]; [done|].
  unfold np_sum in *. cbn [foldr]. by rewrite IH.
Qed.

Lemma sum_one_bin a b k n :
  foldr Z.add 0 ((fun j => if decide (j = k) then n else 0) <$> np_arange a b)
  = if decide (a <= k < b) then n else 0.
Proof.
  remember (Z.to_nat (b - a)) as m eqn:Hm. revert a Hm.
  induction m as [|m IH]; intros a Hm.
  - rewrite np_arange_nil by lia. cbn. by rewrite decide_False by lia.
  - rewrite np_arange_cons by lia. cbn [fmap list_fmap foldr].
    rewrite (IH (a + 1)) by lia.
    repeat case_decide; lia.
Qed.

Lemma bin_index_range bins a k :
  0 < bins → bin_index bins a = Some k → 0 <= k < bins.
Proof.
  intros Hbins. destruct a as [x| | |]; try done. cbn [bin_index].
  destruct (bool_decide (0 <= x)%Qc) eqn:H0; [|done].
  destruct (bool_decide (x <= Qc_of_Z 90)%Qc) eqn:H90; [|done].
  apply bool_decide_eq_true in H0, H90. cbn [andb].
  case_decide as Hx; intros [= <-]; [lia|].
  assert (HB : (0 < Qc_of_Z bins)%Qc).
  { rewrite <- Z2Qc_inj_0. by apply (proj1 (Z2Qc_inj_lt _ _)). }
  assert (HN : (0 < Qc_of_Z 90)%Qc) by done.
  set (y := (x * Qc_of_Z bins / Qc_of_Z 90)%Qc).
  assert (Hy : (y * Qc_of_Z 90 = x * Qc_of_Z bins)%Qc) by (unfold y; by field).
  assert (Hy0 : (0 <= y)%Qc).
  { apply (Qcmult_le_mono_pos_r _ _ _ HN). rewrite Hy, Qcmult_0_l.
    apply Qcmult_nonneg_nonneg; [done | by apply Qclt_le_weak]. }
  assert (Hy1 : (y < Qc_of_Z bins)%Qc).
  { apply (Qcmult_lt_mono_pos_r _ _ _ HN). rewrite Hy.
    rewrite (Qcmult_comm (Qc_of_Z bins)).
    apply Qcmult_lt_mono_pos_r; [done|].
    by destruct (Qcle_lt_or_eq _ _ H90). }
  split.
  - change 0 with (Qfloor 0). by apply Qfloor_resp_le.
  - pose proof (Qfloor_le y) as Hfl.
    apply Z2Qc_inj_lt. eapply Qcle_lt_trans; [|exact Hy1]. exact Hfl.
Qed.

Lemma filter_bin_index bins k j (angles : list float64) :
  Forall (fun a => bin_index bins a = Some k) angles →
  filter (fun v => bin_index bins v = Some j) angles
  = if decide (j = k) then angles else [].
Proof.
  induction 1 as [|a angles Ha _ IH].
  - by case_decide.
  - rewrite filter_cons, IH, Ha. repeat case_decide; congruence.
Qed.

(** All angles in one bin: the histogram has that bin alone occupied. *)
Lemma np_histogram_one_bin bins k (angles : list float64) :
  0 < bins →
  Forall (fun a => bin_index bins a = Some k) angles →
  np_histogram angles bins
  = Some ((fun j => if decide (j = k) then Z.of_nat (length angles) else 0)
            <$> np_arange 0 bins).
Proof.
  intros Hbins Hall. unfold np_histogram. rewrite decide_True by done.
  f_equal. apply list_fmap_ext. intros _ j _.
  rewrite (filter_bin_index _ k) by done. by case_decide.
Qed.

Section Entropy.
Context (log : float64 -> float64).
Hypothesis log_one : log f_one = f_zero.

Lemma entr_zero : entr log f_zero = f_zero.
Proof. reflexivity. Qed.

Lemma entr_one : entr log f_one = f_zero.
Proof.
  unfold entr. change (is_nan f_one) with false.
  change (f_ltb f_zero f_one) with true. cbv iota.
  rewrite log_one. cbn. unfold f_zero. f_equal; ring.
Qed.

(** The entropy of counts concentrated in one bin is 0. *)
Lemma entropy_one_bin bins k n :
  0 < n →
  0 <= k < bins →
  entropy log ((fun j => if decide (j = k) then n else 0) <$> np_arange 0 bins)
  = f_zero.
Proof.
  intros Hn Hk. unfold entropy. rewrite sum_one_bin.
  rewrite decide_True by done.
  apply np_sum_zeros. rewrite <- !list_fmap_compose.
  apply Forall_fmap, Forall_forall. intros j _. unfold compose.
  assert (Hn' : Qc_of_Z n ≠ 0%Qc).
  { rewrite <- Z2Qc_inj_0. intros E%Z2Qc_inj. lia. }
  case_decide.
  - replace (f_of_int n / f_of_int n)%f64 with f_one; [apply entr_one|].
    cbn [f_of_int f_div]. rewrite decide_False by done.
    unfold f_one. f_equal. by field.
  - replace (f_of_int 0 / f_of_int n)%f64 with f_zero; [apply entr_zero|].
    cbn [f_of_int f_div]. rewrite decide_False by done.
    unfold f_zero. f_equal. rewrite Z2Qc_inj_0. by field.
Qed.
End Entropy.

Section OrientationEntropy.
Context {polygon : Type}.
Context (mbr_exterior_xy : polygon -> option (list float64 * list float64)).
Context (arctan2 : float64 -> float64 -> float64).
Context (degrees log : float64 -> float64).

Local Abbreviation get_orientation' :=
  (get_orientation polygon mbr_exterior_xy arctan2 degrees).
Local Abbreviation calculate_orientation_entropy' :=
  (calculate_orientation_entropy polygon mbr_exterior_xy arctan2 degrees log).

Lemma mapM_get_orientation_one_bin bins k (geoms : list polygon) :
  Forall (fun p => ∃ a, get_orientation' p = Some a
                        ∧ bin_index bins a = Some k) geoms →
  ∃ angles, mapM get_orientation' geoms = Some angles
            ∧ length angles = length geoms
            ∧ Forall (fun a => bin_index bins a = Some k) angles.
Proof.
  induction 1 as [|p geoms (a & Ha & Hk) _ (angles & Hm & Hl & Hall)].
  - by exists [].
  - exists (a :: angles). cbn. rewrite Ha, Hm. cbn.
    split; [done|]. split; [by rewrite Hl|]. by constructor.
Qed.

End OrientationEntropy.

(** ** The claims on the concrete instance *)

Lemma f_sub_diag z : (f_of_int z - f_of_int z)%f64 = f_zero.
Proof. unfold f_sub, f_of_int, f_zero. cbn. f_equal. ring. Qed.

Lemma rect_get_orientation p :
  get_orientation rectangle rect_mbr rect_arctan2 id p = Some f_zero.
Proof.
  unfold get_orientation, rect_mbr.
  cbn -[f_sub f_mod f_of_int rect_arctan2]. rewrite f_sub_diag.
  change (rect_arctan2 f_zero _) with f_zero.
  f_equal; vm_compute; apply (f_equal Fin), Qc_is_canon; reflexivity.
Qed.

(** C1, as the specification states it, fails: region "B" has a boundary
    and no lots, and the table has no record for it. *)
Lemma boundary_region_without_lots_dropped :
  ∃ l table,
    load_lot_data rectangle rect_area id
      (Some scenario_lots) (Some scenario_boundaries) ∅
    = Some (Some l, <[l := table]> ∅)
    ∧ "B" ∈ (boundary_id <$> scenario_boundaries)
    ∧ ("B" ∉ (lot_id <$> scenario_lots))
    ∧ ¬ ∃ r, r ∈ table ∧ city r = "B".
Proof.
  eexists _, _. split; [apply load_lot_data_run|].
  split; [by right; left|].
  assert (Hnot : "B" ∉ (lot_id <$> scenario_lots)).
  { by intros [|[|?%not_elem_of_nil]%elem_of_cons]%elem_of_cons. }
  split; [done|].
  intros (r & (lf & Hlf & Hc & _)%lot_table_from_lots & HB).
  apply Hnot, list_elem_of_fmap. exists lf. split; congruence.
Qed.

(** C4, as the specification states it, fails: the record of region "A"
    carries the two lots, not the boundary polygon of "A". *)
Lemma record_geometry_is_not_boundary :
  ∃ l table,
    load_lot_data rectangle rect_area id
      (Some scenario_lots) (Some scenario_boundaries) ∅
    = Some (Some l, <[l := table]> ∅)
    ∧ BoundaryFeature "A" (Polygon (Rectangle 0 0 1000 1000))
      ∈ scenario_boundaries
    ∧ ∃ r, r ∈ table ∧ city r = "A"
           ∧ geometry_col r
             = MultiPolygon [Rectangle 0 0 10 10; Rectangle 20 20 10 30]
           ∧ geometry_col r ≠ Polygon (Rectangle 0 0 1000 1000).
Proof.
  eexists _, _. split; [apply load_lot_data_run|].
  split; [by left|].
  eexists. split; [|split; [|split]].
  - unfold lot_table. cbn. left.
  - reflexivity.
  - reflexivity.
  - discriminate.
Qed.

(** C5, as the specification states it, fails: after the call the frame
    that was passed in has changed. *)
Lemma add_geo_features_mutates_argument :
  ∃ h',
    add_geo_features rectangle rect_area 0%nat scenario_heap
    = Some (0%nat, h')
    ∧ h' !! 0%nat ≠ scenario_heap !! 0%nat.
Proof.
  eexists. split.
  - by apply (add_geo_features_run rect_area scenario_heap 0%nat
                [scenario_row; zero_boundary_row]).
  - rewrite lookup_insert_eq. unfold scenario_heap.
    rewrite lookup_singleton_eq.
    intros E%(f_equal (fun o => match o with
                                | Some (r :: _) => features r !! "pct_lot_area"
                                | _ => None
                                end)).
    cbn [fmap list_fmap] in E.
    by destruct (add_geo_row_features rect_area scenario_row) as (Hp & _);
      rewrite Hp in E.
Qed.

(** Closed equations between computed floats: the rationals are compared as
    fractions. *)
Ltac f64_decide :=
  vm_compute;
  first [ reflexivity
        | apply (f_equal Fin), Qc_is_canon; reflexivity
        | apply (f_equal Some), (f_equal Fin), Qc_is_canon; reflexivity ].

Lemma scenario_heap_lookup :
  scenario_heap !! 0%nat = Some [scenario_row; zero_boundary_row].
Proof. apply lookup_singleton_eq. Qed.

Lemma load_lot_data_keeps_lot_regions_witness :
  ∃ l table,
    load_lot_data rectangle rect_area id
      (Some scenario_lots) (Some scenario_boundaries) ∅
    = Some (Some l, <[l := table]> ∅)
    ∧ ∃ r, r ∈ table ∧ city r = "C" ∧ boundary_area r = NaN.
Proof.
  destruct (load_lot_data_keeps_lot_regions rect_area id
              scenario_lots scenario_boundaries ∅)
    as (l & table & Hrun & Hkeep & Hnan & _).
  exists l, table. split; [exact Hrun|].
  destruct (Hkeep (LotFeature "C" (Polygon (Rectangle 0 0 1 1))))
    as (r & Hr & Hc); [by right; left|].
  exists r. split; [done|]. split; [done|].
  apply Hnan; [done|]. rewrite Hc.
  by intros [|[|?%not_elem_of_nil]%elem_of_cons]%elem_of_cons.
Defined.

Lemma add_geo_features_values_witness :
  (∃ rows',
      add_geo_features rectangle rect_area 0%nat scenario_heap
      = Some (0%nat, <[0%nat := rows']> scenario_heap)
      ∧ length rows' = 2%nat)
  ∧ ∃ r',
      add_geo_features rectangle rect_area 0%nat {[ 0%nat := [scenario_row] ]}
      = Some (0%nat, <[0%nat := [r']]> {[ 0%nat := [scenario_row] ]})
      ∧ features r' !! "pct_lot_area" = Some (Fin (Q2Qc 0.0004))
      ∧ features r' !! "lots_per_sq_km" = Some (Fin (Q2Qc 0.002))
      ∧ features r' !! "avg_lot_area" = Some (Fin (Q2Qc 0.2)).
Proof.
  destruct (add_geo_features_values rect_area) as [Hall Hscenario]. split.
  - destruct (Hall scenario_heap 0%nat _ scenario_heap_lookup)
      as (rows' & Hrun & Hrows).
    exists rows'. split; [exact Hrun|].
    by rewrite <- (Forall2_length _ _ _ Hrows).
  - apply (Hscenario _ _ scenario_row
             (Rectangle 0 0 10 10) (Rectangle 20 20 10 30));
      solve [apply lookup_singleton_eq | reflexivity].
Defined.

Lemma output_geometry_is_lot_geometry_witness :
  ∃ l table,
    load_lot_data rectangle rect_area id
      (Some scenario_lots) (Some scenario_boundaries) ∅
    = Some (Some l, <[l := table]> ∅)
    ∧ ∀ r, r ∈ table →
           ∃ lf, lf ∈ scenario_lots ∧ city r = lot_id lf
                 ∧ geometry_col r = geom_to_crs rectangle id (lot_geometry lf).
Proof.
  exact (proj1 (output_geometry_is_lot_geometry rect_area id rect_mbr
                  rect_arctan2 id rect_log scenario_lots scenario_boundaries ∅)).
Defined.

Lemma add_geo_features_in_place_witness :
  ∃ rows',
    add_geo_features rectangle rect_area 0%nat scenario_heap
    = Some (0%nat, <[0%nat := rows']> scenario_heap)
    ∧ length rows' = 2%nat.
Proof.
  destruct (add_geo_features_in_place rect_area scenario_heap 0%nat _
              scenario_heap_lookup) as (rows' & Hrun & Hrows).
  exists rows'. split; [exact Hrun|].
  by rewrite <- (Forall2_length _ _ _ Hrows).
Defined.


Lemma rect_get_orientation_is_Some p :
  is_Some (get_orientation rectangle rect_mbr rect_arctan2 id p).
Proof. rewrite rect_get_orientation. by eexists. Qed.

Lemma zero_boundary_area_propagates_witness :
  ∃ out h',
    rect_main (Some scenario_lots) (Some zero_area_boundaries) ∅
    = Some (out, h')
    ∧ ∀ r, r ∈ out → boundary_area r = f_zero →
           ∃ pct density,
             features r !! "pct_lot_area" = Some pct
             ∧ features r !! "lots_per_sq_km" = Some density
             ∧ pct = (total_lot_area r / boundary_area r)%f64
             ∧ density = (f_of_int (1000 * num_lots r) / boundary_area r)%f64
             ∧ is_finite pct = false ∧ is_finite density = false.
Proof.
  destruct (zero_boundary_area_propagates rect_area id rect_mbr rect_arctan2
              id rect_log) as (_ & Hmain & Hreturns).
  destruct (Hreturns scenario_lots zero_area_boundaries ∅
              rect_get_orientation_is_Some) as (out & h' & Hrun).
  exists out, h'. split; [exact Hrun|]. exact (Hmain _ _ _ _ _ Hrun).
Defined.

(** The reference scenario, end to end: the table [main] writes. *)
Example reference_scenario :
  ∃ r rest h',
    rect_main (Some scenario_lots) (Some scenario_boundaries) ∅
    = Some (r :: rest, h')
    ∧ city r = "A" ∧ total_lot_area r = f_of_int 400 ∧ num_lots r = 2
    ∧ boundary_area r = f_of_int 1000000
    ∧ features r !! "pct_lot_area" = Some (Fin (Q2Qc 0.0004))
    ∧ features r !! "lots_per_sq_km" = Some (Fin (Q2Qc 0.002))
    ∧ features r !! "avg_lot_area" = Some (Fin (Q2Qc 0.2))
    ∧ features r !! "gini_coef" = Some (Fin (Q2Qc 0.25))
    ∧ features r !! "orientation_entropy" = Some f_zero.
Proof.
  eexists _, _, _. split; [vm_compute; reflexivity|].
  repeat split; f64_decide.
Qed.

(** A boundary of area 0: both ratios are infinite in the table [main]
    writes. *)
Example zero_boundary_scenario :
  ∃ r rest h',
    rect_main (Some scenario_lots) (Some zero_area_boundaries) ∅
    = Some (r :: rest, h')
    ∧ city r = "A" ∧ boundary_area r = f_zero
    ∧ features r !! "pct_lot_area" = Some PInf
    ∧ features r !! "lots_per_sq_km" = Some PInf.
Proof.
  eexists _, _, _. split; [vm_compute; reflexivity|].
  repeat split; f64_decide.
Qed.

(** * Further properties of [gini_coefficient] *)

(** [gini_coefficient] with the weighted sum written over ranks. *)
Lemma gini_coefficient_unfold x :
  gini_coefficient x
  = if bool_decide (length x <= 1)%nat || f_eqb (np_sum x) f_zero then f_zero
    else (rank_weighted_sum (Z.of_nat (length x)) 1 (np_sort x)
          / (f_of_int (Z.of_nat (length x)) * np_sum (np_sort x)))%f64.
Proof.
  unfold gini_coefficient. destruct (_ || _); [done|].
  rewrite np_sort_length.
  replace (Z.of_nat (length x) + 1)
    with (1 + Z.of_nat (length (np_sort x))) by (rewrite np_sort_length; lia).
  by rewrite weights_rank_weighted_sum.
Qed.

(** ** [NaN] among the values *)

Lemma f_add_NaN_r a : (a + NaN)%f64 = NaN.
Proof. by destruct a. Qed.

Lemma f_mul_NaN_r a : (a * NaN)%f64 = NaN.
Proof. by destruct a. Qed.

Lemma np_sum_NaN x : NaN ∈ x → np_sum x = NaN.
Proof.
  induction x as [|a x IH]; [by intros ?%not_elem_of_nil|].
  unfold np_sum in *. cbn [foldr]. intros [<-|H]%elem_of_cons; [done|].
  by rewrite IH, f_add_NaN_r.
Qed.

Lemma rank_weighted_sum_NaN n k x :
  NaN ∈ x → rank_weighted_sum n k x = NaN.
Proof.
  revert k. induction x as [|a x IH]; intros k;
    [by intros ?%not_elem_of_nil|].
  cbn [rank_weighted_sum]. intros [<-|H]%elem_of_cons.
  - by rewrite f_mul_NaN_r.
  - by rewrite IH, f_add_NaN_r.
Qed.

(** X3. A [NaN] among two or more values makes the result of
    [gini_coefficient] [NaN]: it is not dropped and not turned into 0. *)
Theorem gini_coefficient_NaN (x : list float64) :
  (2 <= length x)%nat → NaN ∈ x → gini_coefficient x = NaN.
Proof.
  intros Hlen Hnan. rewrite gini_coefficient_unfold.
  rewrite bool_decide_eq_false_2 by lia.
  rewrite (np_sum_NaN x Hnan). cbn [orb f_eqb].
  rewrite rank_weighted_sum_NaN; [done|].
  by rewrite np_sort_Permutation.
Qed.

Lemma gini_coefficient_NaN_witness :
  gini_coefficient [f_of_int 100; NaN; f_of_int 300] = NaN.
Proof.
  apply gini_coefficient_NaN; [simpl; lia|]. right; left.
Defined.

(** * Further properties of the tables *)

Section MoreTableFacts.
Context {polygon : Type} (area : polygon -> float64).
Context (to_crs : polygon -> polygon).
Context (mbr_exterior_xy : polygon -> option (list float64 * list float64)).
Context (arctan2 : float64 -> float64 -> float64).
Context (degrees log : float64 -> float64).
Implicit Types (h : heap polygon) (r : row polygon).
Implicit Types (rows : list (row polygon)).

Lemma add_geo_row_idempotent r :
  add_geo_row area (add_geo_row area r) = add_geo_row area r.
Proof.
  unfold add_geo_row, set_feature. cbn [city geometry_col total_lot_area
    num_lots boundary_area features]. f_equal.
  apply map_eq. intros name. rewrite !lookup_insert.
  repeat case_decide; done.
Qed.

(** X4. Calling [add_geo_features] again on the frame it has already
    processed changes nothing: the three columns are recomputed from fields
    the call leaves alone. *)
Theorem add_geo_features_idempotent h l rows :
  h !! l = Some rows →
  ∃ h1,
    add_geo_features polygon area l h = Some (l, h1)
    ∧ add_geo_features polygon area l h1 = Some (l, h1).
Proof.
  intros Hl. eexists. split; [by apply add_geo_features_run|].
  rewrite (add_geo_features_run area _ l (add_geo_row area <$> rows))
    by apply lookup_insert_eq.
  rewrite insert_insert_eq. do 3 f_equal.
  rewrite <- list_fmap_compose. apply list_fmap_ext. intros _ r _.
  apply add_geo_row_idempotent.
Qed.

(** *** The rows [load_lot_data] builds *)

Lemma geom_area_constituents (g : geometry polygon) :
  geom_area polygon area g = np_sum (area <$> constituent_polygons g).
Proof.
  destruct g as [p|ps]; [|done].
  unfold np_sum. cbn [geom_area constituent_polygons fmap list_fmap foldr].
  by rewrite f_add_zero_r.
Qed.

Lemma count_lots_constituents (g : geometry polygon) :
  count_lots g = Z.of_nat (length (constituent_polygons g)).
Proof. by destruct g. Qed.

(** X5. In the table [load_lot_data] builds, every record's [num_lots] is
    the number of constituent polygons of the geometry it carries, its
    [total_lot_area] is the sum of their areas, and no feature column is set
    yet; a record with a boundary match has the area of a boundary with its
    key as [boundary_area]. *)
Theorem load_lot_data_rows lots boundaries h :
  ∃ l table,
    load_lot_data polygon area to_crs (Some lots) (Some boundaries) h
    = Some (Some l, <[l := table]> h)
    ∧ h !! l = None
    ∧ ∀ r, r ∈ table →
        num_lots r = Z.of_nat (length (constituent_polygons (geometry_col r)))
        ∧ total_lot_area r
          = np_sum (area <$> constituent_polygons (geometry_col r))
        ∧ features r = ∅
        ∧ (boundary_area r = NaN
           ∨ ∃ b, b ∈ boundaries ∧ boundary_id b = city r
                  ∧ boundary_area r
                    = geom_area polygon area
                        (geom_to_crs polygon to_crs (boundary_geometry b))).
Proof.
  eexists _, _. split; [apply load_lot_data_run|].
  split; [apply not_elem_of_dom, is_fresh|].
  unfold lot_table.
  intros r (l & total & n & Hl & Hc & Hg & Ht & Hn & Hf & Hb)%merge_left_elem.
  apply list_elem_of_fmap in Hl as (l' & [= -> -> ->] & Hl').
  rewrite Hn, Ht, Hg, count_lots_constituents, geom_area_constituents.
  repeat (split; [done|]).
  destruct Hb as [[-> _] | (b & Hb & Hid & ->)]; [by left|right].
  apply list_elem_of_fmap in Hb as (b' & -> & Hb').
  apply list_elem_of_fmap in Hb' as (bf & -> & Hbf).
  exists bf. split; [done|]. split; [|done]. simpl in Hid. congruence.
Qed.

Lemma filter_NoDup_key {A} (key : A → string) (k : string) (l : list A) :
  NoDup (key <$> l) → (length (filter (fun b => key b = k) l) <= 1)%nat.
Proof.
  induction l as [|a l IH]; [simpl; lia|].
  cbn [fmap list_fmap]. intros [Hnotin Hd]%NoDup_cons.
  rewrite filter_cons. case_decide as Ha; [|by apply IH].
  assert (filter (fun b => key b = k) l = []) as ->; [|simpl; lia].
  destruct (filter _ l) as [|b bs] eqn:E; [done|exfalso].
  assert (b ∈ filter (fun b => key b = k) l) as Hin by (rewrite E; left).
  apply list_elem_of_filter in Hin as [Hk Hin].
  apply Hnotin, list_elem_of_fmap. exists b. split; congruence.
Qed.

Lemma merge_left_cities (lots : list (lot_feature polygon * float64 * Z))
    (boundaries : list (boundary_feature polygon * float64)) :
  NoDup ((fun b => boundary_id b.1) <$> boundaries) →
  city <$> merge_left lots boundaries = (fun l => lot_id l.1.1) <$> lots.
Proof.
  intros Hd. unfold merge_left.
  induction lots as [|[[l total] n] lots IH]; [done|].
  cbn [mbind list_bind fmap list_fmap]. rewrite fmap_app.
  pose proof (filter_NoDup_key (fun b => boundary_id b.1) (lot_id l)
                boundaries Hd) as Hlen.
  destruct (filter _ boundaries) as [|b [|b' bs]];
    [| |simpl in Hlen; lia];
    cbn [fmap list_fmap app city]; f_equal; exact IH.
Qed.

(** X6. When the boundary keys are pairwise distinct, the table
    [load_lot_data] builds has exactly one record per lot record, in the
    order of the lot dataset. *)
Theorem load_lot_data_one_row_per_lot lots boundaries h :
  NoDup (boundary_id <$> boundaries) →
  ∃ l table,
    load_lot_data polygon area to_crs (Some lots) (Some boundaries) h
    = Some (Some l, <[l := table]> h)
    ∧ city <$> table = lot_id <$> lots
    ∧ length table = length lots.
Proof.
  intros Hd. eexists _, _. split; [apply load_lot_data_run|].
  assert (E : city <$> lot_table polygon area to_crs lots boundaries
              = lot_id <$> lots).
  { unfold lot_table. rewrite merge_left_cities.
    - rewrite <- !list_fmap_compose. by apply list_fmap_ext.
    - rewrite <- !list_fmap_compose.
      erewrite list_fmap_ext; [exact Hd|]. by intros _ b _. }
  split; [done|].
  by rewrite <- (length_fmap city), E, length_fmap.
Qed.

(** *** The table [main] writes *)

Local Abbreviation get_orientation' :=
  (get_orientation polygon mbr_exterior_xy arctan2 degrees).
Local Abbreviation calculate_orientation_entropy' :=
  (calculate_orientation_entropy polygon mbr_exterior_xy arctan2 degrees log).
Local Abbreviation entropy_of_geometry' :=
  (entropy_of_geometry polygon mbr_exterior_xy arctan2 degrees log).
Local Abbreviation main' :=
  (main polygon area to_crs mbr_exterior_xy arctan2 degrees log).
Local Abbreviation lot_table' := (lot_table polygon area to_crs).

Lemma Forall2_elem_of_r {A B} (P : A → B → Prop) l k y :
  Forall2 P l k → y ∈ k → ∃ x, x ∈ l ∧ P x y.
Proof.
  induction 1 as [|x y' l k Hxy _ IH]; [by intros ?%not_elem_of_nil|].
  intros [->|Hy]%elem_of_cons.
  - exists x. split; [left|done].
  - destruct (IH Hy) as (x' & ? & ?). exists x'. split; [by right|done].
Qed.

Lemma main_rows_Forall2 rows entropies :
  Forall2 (fun r e => entropy_of_geometry' (geometry_col r) = Some e)
    rows entropies →
  Forall2 (fun r r' =>
     ∃ e, r' = set_feature "orientation_entropy" e
                 (gini_row area (add_geo_row area r))
          ∧ entropy_of_geometry' (geometry_col r) = Some e)
    rows (main_rows area rows entropies).
Proof.
  unfold main_rows. induction 1 as [|r e rows entropies He _ IH];
    cbn [fmap list_fmap zip_with]; constructor; [|exact IH].
  by exists e.
Qed.

(** What [main] returns, when it returns: it allocates one frame, and the
    table in it is the merged table, record by record. *)
Lemma main_returns_table lots boundaries h out h' :
  main' (Some lots) (Some boundaries) h = Some (out, h') →
  h' = <[fresh (dom h) := out]> h
  ∧ Forall2 (fun r r' =>
     ∃ e, r' = set_feature "orientation_entropy" e
                 (gini_row area (add_geo_row area r))
          ∧ entropy_of_geometry' (geometry_col r) = Some e)
      (lot_table' lots boundaries) out.
Proof.
  rewrite main_run.
  destruct (mapM _ _) as [entropies|] eqn:E; [|done].
  intros [= <- <-]. split; [done|].
  by apply main_rows_Forall2, mapM_Some_1.
Qed.

Lemma lot_table_row_invariant lots boundaries r :
  r ∈ lot_table' lots boundaries →
  num_lots r = Z.of_nat (length (constituent_polygons (geometry_col r)))
  ∧ total_lot_area r = np_sum (area <$> constituent_polygons (geometry_col r))
  ∧ features r = ∅.
Proof.
  unfold lot_table.
  intros (l & total & n & Hl & Hc & Hg & Ht & Hn & Hf & Hb)%merge_left_elem.
  apply list_elem_of_fmap in Hl as (l' & [= -> -> ->] & Hl').
  by rewrite Hn, Ht, Hg, count_lots_constituents, geom_area_constituents.
Qed.

Lemma gini_of_geometry_constituents (g : geometry polygon) :
  gini_of_geometry polygon area g
  = gini_coefficient (area <$> constituent_polygons g).
Proof. by destruct g. Qed.

Lemma entropy_of_geometry_constituents (g : geometry polygon) :
  entropy_of_geometry' g
  = calculate_orientation_entropy' (constituent_polygons g) 36.
Proof. by destruct g. Qed.

(** X7. In the table [main] writes, every record's [avg_lot_area] is the
    mean of the areas of its constituent polygons over 1000, its
    [gini_coef] is [gini_coefficient] of those areas and its
    [orientation_entropy] is [calculate_orientation_entropy] of the
    polygons with 36 bins: the shortcut taken for a single polygon agrees
    with the functions applied to a one-element decomposition. *)
Theorem main_feature_columns lots boundaries h out h' :
  main polygon area to_crs mbr_exterior_xy arctan2 degrees log
    (Some lots) (Some boundaries) h = Some (out, h') →
  ∀ r, r ∈ out →
    features r !! "avg_lot_area"
    = Some (np_mean (area <$> constituent_polygons (geometry_col r))
            / f_of_int 1000)%f64
    ∧ features r !! "gini_coef"
      = Some (gini_coefficient (area <$> constituent_polygons (geometry_col r)))
    ∧ features r !! "orientation_entropy"
      = calculate_orientation_entropy polygon mbr_exterior_xy arctan2 degrees
          log (constituent_polygons (geometry_col r)) 36.
Proof.
  intros [_ Hrows]%main_returns_table r' Hr'.
  destruct (Forall2_elem_of_r _ _ _ _ Hrows Hr') as (r & Hr & e & -> & He).
  destruct (lot_table_row_invariant _ _ _ Hr) as (Hn & Ht & _).
  unfold gini_row, add_geo_row, set_feature.
  cbn [features total_lot_area num_lots geometry_col].
  rewrite <- entropy_of_geometry_constituents, He.
  rewrite gini_of_geometry_constituents, mean_lot_area_constituents.
  split; [|split].
  - by rewrite !(lookup_insert_ne _ _ "avg_lot_area"), lookup_insert_eq
      by done.
  - rewrite lookup_insert_ne by done. by rewrite lookup_insert_eq.
  - by rewrite lookup_insert_eq.
Qed.

(** X8. When either file is missing, [load_lot_data] returns [None] and
    creates no table, and [main], which passes the result on to
    [add_geo_features], raises. *)
Theorem missing_file_behaviour lots_file boundaries_file h :
  lots_file = None ∨ boundaries_file = None →
  load_lot_data polygon area to_crs lots_file boundaries_file h
  = Some (None, h)
  ∧ main polygon area to_crs mbr_exterior_xy arctan2 degrees log
      lots_file boundaries_file h = None.
Proof.
  intros Hmiss. split; [by apply load_lot_data_missing|].
  unfold main. unfold bind at 1.
  by rewrite (load_lot_data_missing area to_crs _ _ _ Hmiss).
Qed.

Lemma f_div_NaN_r a : (a / NaN)%f64 = NaN.
Proof. by destruct a. Qed.

(** X9. In the table [main] writes, a record whose key is absent from the
    boundary dataset has [NaN] as [boundary_area], [pct_lot_area] and
    [lots_per_sq_km]. *)
Theorem main_unmatched_region_is_NaN lots boundaries h out h' :
  main polygon area to_crs mbr_exterior_xy arctan2 degrees log
    (Some lots) (Some boundaries) h = Some (out, h') →
  ∀ r, r ∈ out → city r ∉ boundary_id <$> boundaries →
    boundary_area r = NaN
    ∧ features r !! "pct_lot_area" = Some NaN
    ∧ features r !! "lots_per_sq_km" = Some NaN.
Proof.
  intros [_ Hrows]%main_returns_table r' Hr' Hnot.
  destruct (Forall2_elem_of_r _ _ _ _ Hrows Hr') as (r & Hr & e & -> & He).
  pose proof (lot_table_unmatched area to_crs _ _ _ Hr Hnot) as Hnan.
  unfold gini_row, add_geo_row, set_feature.
  cbn [features boundary_area].
  rewrite Hnan, !f_div_NaN_r. split; [done|]. split.
  - rewrite !(lookup_insert_ne _ _ "pct_lot_area") by done.
    by rewrite lookup_insert_eq.
  - rewrite !(lookup_insert_ne _ _ "lots_per_sq_km") by done.
    by rewrite lookup_insert_eq.
Qed.

(** X10. [main] changes the heap in one place only: the frame
    [load_lot_data] allocates, which ends up holding the table [main]
    writes. That table has the records of the merged table, in the same
    order and with the same fields, each with exactly the five feature
    columns. *)
Theorem main_frame_and_shape lots boundaries h out h' :
  main polygon area to_crs mbr_exterior_xy arctan2 degrees log
    (Some lots) (Some boundaries) h = Some (out, h') →
  ∃ l table,
    load_lot_data polygon area to_crs (Some lots) (Some boundaries) h
    = Some (Some l, <[l := table]> h)
    ∧ h !! l = None
    ∧ h' = <[l := out]> h
    ∧ Forall2 (fun r r' =>
        city r' = city r ∧ geometry_col r' = geometry_col r
        ∧ total_lot_area r' = total_lot_area r ∧ num_lots r' = num_lots r
        ∧ boundary_area r' = boundary_area r
        ∧ dom (features r')
          = ({["pct_lot_area"; "lots_per_sq_km"; "avg_lot_area";
               "gini_coef"; "orientation_entropy"]} : gset string))
        table out.
Proof.
  intros [-> Hrows]%main_returns_table.
  eexists _, _. split; [apply load_lot_data_run|].
  split; [apply not_elem_of_dom, is_fresh|]. split; [done|].
  apply Forall2_same_length_lookup. split; [by eapply Forall2_length|].
  intros i r r' Hr Hr'.
  destruct (Forall2_lookup_lr _ _ _ _ _ _ Hrows Hr Hr') as (e & -> & _).
  repeat (split; [done|]).
  destruct (lot_table_row_invariant lots boundaries r) as (_ & _ & Hf).
  { by eapply list_elem_of_lookup_2. }
  unfold gini_row, add_geo_row, set_feature. cbn [features].
  rewrite !dom_insert_L, Hf, dom_empty_L. set_solver.
Qed.

(** *** When the orientation entropy, and [main], raise *)

Lemma calculate_orientation_entropy_is_Some (geoms : list polygon) bins :
  is_Some (calculate_orientation_entropy' geoms bins)
  ↔ (length geoms <= 1)%nat
    ∨ (Forall (fun p => is_Some (get_orientation' p)) geoms ∧ 0 < bins).
Proof.
  unfold calculate_orientation_entropy. case_bool_decide as Hlen.
  { split; [by left | by eexists]. }
  split.
  - intros [v Hv]. right.
    destruct (mapM get_orientation' geoms) as [angles|] eqn:E; [|done].
    cbn [mbind option_bind] in Hv. split.
    + apply (mapM_is_Some_1 get_orientation'). by rewrite E.
    + unfold np_histogram in Hv. by case_decide.
  - intros [?|[Hall Hbins]]; [lia|].
    destruct (mapM_is_Some_2 get_orientation' geoms Hall) as [angles ->].
    cbn [mbind option_bind]. unfold np_histogram.
    rewrite decide_True by done. by eexists.
Qed.

(** X11. [calculate_orientation_entropy] returns a value exactly when there
    are fewer than two polygons, or the bin count is positive and every
    polygon has an orientation; with fewer than two polygons no orientation
    is computed and the bin count is not looked at. *)
Theorem calculate_orientation_entropy_returns (geoms : list polygon) bins :
  is_Some (calculate_orientation_entropy polygon mbr_exterior_xy arctan2
             degrees log geoms bins)
  ↔ (length geoms <= 1)%nat
    ∨ (Forall (fun p => is_Some (get_orientation polygon mbr_exterior_xy
                                   arctan2 degrees p)) geoms
       ∧ 0 < bins).
Proof. apply calculate_orientation_entropy_is_Some. Qed.

(** X12. [main] returns a table exactly when, in every lot geometry with
    two or more parts, every (reprojected) part has an orientation; single
    polygons and one-part collections never make it raise. *)
Theorem main_returns_iff lots boundaries h :
  is_Some (main polygon area to_crs mbr_exterior_xy arctan2 degrees log
             (Some lots) (Some boundaries) h)
  ↔ ∀ lf ps,
      lf ∈ lots → lot_geometry lf = MultiPolygon ps → (2 <= length ps)%nat →
      Forall (fun p => is_Some (get_orientation polygon mbr_exterior_xy
                                  arctan2 degrees (to_crs p))) ps.
Proof.
  rewrite main_run.
  set (f := fun r : row polygon => entropy_of_geometry' (geometry_col r)).
  assert (is_Some (entropies ← mapM f (lot_table' lots boundaries);
                   let out := main_rows area (lot_table' lots boundaries)
                                entropies in
                   Some (out, <[fresh (dom h) := out]> h))
          ↔ Forall (fun r => is_Some (f r)) (lot_table' lots boundaries))
    as ->.
  { rewrite <- (mapM_is_Some f). destruct (mapM f _); cbn; split;
      intros [? ?]; (done || by eexists). }
  rewrite Forall_forall. split.
  - intros Hall lf ps Hlf Hg Hlen.
    destruct (lot_table_keeps_lots area to_crs lots boundaries lf Hlf)
      as (r & Hr & _ & Hgeo).
    specialize (Hall r Hr). unfold f in Hall.
    rewrite Hgeo, Hg in Hall. cbn [geom_to_crs entropy_of_geometry] in Hall.
    apply calculate_orientation_entropy_is_Some in Hall
      as [Hshort|[Hall _]]; [rewrite length_fmap in Hshort; lia|].
    apply (proj1 (Forall_fmap _ _ _)) in Hall. exact Hall.
  - intros Hall r (lf & Hlf & _ & Hgeo)%lot_table_from_lots.
    unfold f. rewrite Hgeo.
    destruct (lot_geometry lf) as [p|ps] eqn:Hg; [by eexists|].
    cbn [geom_to_crs entropy_of_geometry].
    apply calculate_orientation_entropy_is_Some.
    destruct (decide (length ps <= 1)%nat) as [?|Hlen];
      [left; by rewrite length_fmap|right].
    split; [|done]. apply (proj2 (Forall_fmap _ _ _)).
    apply (Hall lf ps); [done|done|lia].
Qed.
End MoreTableFacts.

(** * Further properties of [get_orientation] *)

Lemma bin_index_in_range bins x :
  0 < bins → (0 <= x)%Qc → (x < Qc_of_Z 90)%Qc →
  ∃ k, bin_index bins (Fin x) = Some k ∧ 0 <= k < bins.
Proof.
  intros Hbins H0 H90.
  assert (is_Some (bin_index bins (Fin x))) as [k Hk].
  { cbn [bin_index]. rewrite !bool_decide_eq_true_2;
      [|by apply Qclt_le_weak|done].
    cbn [andb]. case_decide; by eexists. }
  exists k. split; [done|]. by eapply bin_index_range.
Qed.

Section OrientationFacts.
Context {polygon : Type}.
Context (mbr_exterior_xy : polygon -> option (list float64 * list float64)).
Context (arctan2 : float64 -> float64 -> float64).
Context (degrees : float64 -> float64).

(** X14. [get_orientation] depends on the angle of the first edge of the
    minimum rotated rectangle only up to whole quarter turns: two polygons
    whose first edges have finite angles that differ by a multiple of 90
    degrees get the same orientation. *)
Theorem get_orientation_quarter_turns p p' x0 x1 xs y0 y1 ys
    x0' x1' xs' y0' y1' ys' (t : Qc) (k : Z) :
  mbr_exterior_xy p = Some (x0 :: x1 :: xs, y0 :: y1 :: ys) →
  mbr_exterior_xy p' = Some (x0' :: x1' :: xs', y0' :: y1' :: ys') →
  degrees (arctan2 (y1 - y0) (x1 - x0))%f64 = Fin t →
  degrees (arctan2 (y1' - y0') (x1' - x0'))%f64
  = Fin (t + Qc_of_Z 90 * Qc_of_Z k)%Qc →
  get_orientation polygon mbr_exterior_xy arctan2 degrees p'
  = get_orientation polygon mbr_exterior_xy arctan2 degrees p.
Proof.
  intros Hp Hp' Ht Ht'. unfold get_orientation. rewrite Hp, Hp'.
  cbn [mbind option_bind lookup list_lookup]. 
  by rewrite Ht, Ht', f_mod_quarter_turns.
Qed.
End OrientationFacts.

Lemma get_orientation_quarter_turns_witness :
  get_orientation Z
    (fun z => Some ([f_zero; f_one], [f_zero; f_of_int z])) (fun y _ => y) id
    180
  = get_orientation Z
      (fun z => Some ([f_zero; f_one], [f_zero; f_of_int z])) (fun y _ => y) id
      0.
Proof.
  apply (get_orientation_quarter_turns _ _ _ 0 180
           f_zero f_one [] f_zero (f_of_int 0) []
           f_zero f_one [] f_zero (f_of_int 180) [] 0%Qc 2);
    [reflexivity | reflexivity | |];
    cbn; f_equal; apply Qc_is_canon; reflexivity.
Defined.

(** ** [get_orientation] in binary64 *)

Lemma Qc_trunc_bounds (q : Qc) :
  ((0 <= q)%Qc ∧ (0 <= q - Qc_of_Z (Qc_trunc q))%Qc
               ∧ (q - Qc_of_Z (Qc_trunc q) < 1)%Qc)
  ∨ ((q < 0)%Qc ∧ (-(1) < q - Qc_of_Z (Qc_trunc q))%Qc
                ∧ (q - Qc_of_Z (Qc_trunc q) <= 0)%Qc).
Proof.
  unfold Qc_trunc. case_decide as Hq.
  - left. split; [done|].
    pose proof (Qfloor_le q) as Hlo. pose proof (Qlt_floor q) as Hhi.
    assert (Hlo' : (Qc_of_Z (Qfloor q) <= q)%Qc) by exact Hlo.
    assert (Hhi' : (q < Qc_of_Z (Qfloor q + 1))%Qc) by exact Hhi.
    rewrite Z2Qc_inj_add, Z2Qc_inj_1 in Hhi'. split.
    + by apply Qcle_minus_iff in Hlo'.
    + apply Qclt_minus_iff in Hhi'. apply Qclt_minus_iff.
      by replace (1 + - (q - Qc_of_Z (Qfloor q)))%Qc
        with (Qc_of_Z (Qfloor q) + 1 + - q)%Qc by ring.
  - right. split; [by apply Qcnot_le_lt|].
    pose proof (Qle_ceiling q) as Hhi. pose proof (Qceiling_lt q) as Hlo.
    assert (Hhi' : (q <= Qc_of_Z (Qceiling q))%Qc) by exact Hhi.
    assert (Hlo' : (Qc_of_Z (Qceiling q - 1) < q)%Qc) by exact Hlo.
    rewrite Z2Qc_inj_sub, Z2Qc_inj_1 in Hlo'. split.
    + apply Qclt_minus_iff in Hlo'. apply Qclt_minus_iff.
      by replace (q - Qc_of_Z (Qceiling q) + - - (1))%Qc
        with (q + - (Qc_of_Z (Qceiling q) - 1))%Qc by ring.
    + apply Qcle_minus_iff in Hhi'. apply Qcle_minus_iff.
      by replace (0 + - (q - Qc_of_Z (Qceiling q)))%Qc
        with (Qc_of_Z (Qceiling q) + - q)%Qc by ring.
Qed.

Lemma b64_of_int_small z : Z.abs z <= 2 ^ 53 → b64_of_int z = f_of_int z.
Proof. apply round_b64_int. Qed.

Lemma round_b64_between (lo hi v : Qc) :
  round_b64 lo = Fin lo → round_b64 hi = Fin hi →
  (lo <= v)%Qc → (v <= hi)%Qc →
  ∃ g : Qc, round_b64 v = Fin g ∧ (lo <= g)%Qc ∧ (g <= hi)%Qc.
Proof.
  intros Elo Ehi Hlo Hhi.
  apply round_b64_mono in Hlo. apply round_b64_mono in Hhi.
  rewrite Elo in Hlo. rewrite Ehi in Hhi. clear Elo Ehi.
  destruct (round_b64 v) as [g| | |]; cbn [f_le] in Hlo, Hhi;
    try contradiction.
  exists g. split; [reflexivity|]. split; assumption.
Qed.

(** The remainder of a finite angle by 90 is a finite angle from 0 to 90,
    both included. *)
Lemma b64_mod_90_range (x : Qc) :
  ∃ g : Qc, b64_mod (Fin x) (b64_of_int 90) = Fin g
            ∧ (0 <= g)%Qc ∧ (g <= Qc_of_Z 90)%Qc.
Proof.
  rewrite b64_of_int_small by done. unfold f_of_int.
  cbn [b64_mod]. rewrite decide_False by done.
  set (q := (x / Qc_of_Z 90)%Qc).
  assert (Hx : x = (Qc_of_Z 90 * q)%Qc) by (unfold q; by field).
  set (d := (q - Qc_of_Z (Qc_trunc q))%Qc).
  assert (Hr : (x - Qc_of_Z 90 * Qc_of_Z (Qc_trunc q) = Qc_of_Z 90 * d)%Qc).
  { rewrite Hx. unfold d. ring. }
  rewrite Hr.
  assert (H90 : (0 < Qc_of_Z 90)%Qc) by done.
  destruct (Qc_trunc_bounds q) as [(_ & Hd0 & Hd1)|(_ & Hd1 & Hd0)];
    fold d in Hd0, Hd1.
  - assert (Hr0 : (0 <= Qc_of_Z 90 * d)%Qc).
    { apply Qcmult_nonneg_nonneg; [by apply Qclt_le_weak|done]. }
    assert (Hr1 : (Qc_of_Z 90 * d < Qc_of_Z 90)%Qc).
    { rewrite <- (Qcmult_1_r (Qc_of_Z 90)) at 2.
      by apply Qcmult_lt_mono_pos_l. }
    rewrite decide_False.
    + eexists. split; [done|]. split; [done|by apply Qclt_le_weak].
    + intros [_ Hsign]. apply Hsign.
      rewrite !bool_decide_eq_false_2; [done|done|].
      by apply Qcle_not_lt.
  - assert (Hr0 : (Qc_of_Z 90 * d <= 0)%Qc).
    { rewrite <- (Qcmult_0_r (Qc_of_Z 90)).
      by apply Qcmult_le_mono_nonneg_l; [apply Qclt_le_weak|]. }
    assert (Hr1 : (0 < Qc_of_Z 90 * d + Qc_of_Z 90)%Qc).
    { replace (Qc_of_Z 90 * d + Qc_of_Z 90)%Qc
        with (Qc_of_Z 90 * (d + 1))%Qc by ring.
      apply Qcmult_pos_pos; [done|].
      apply Qclt_minus_iff in Hd1. by rewrite Qcopp_involutive in Hd1. }
    case_decide as Hc.
    + unfold b64_add. cbn [f_add rounded].
      apply round_b64_between.
      * exact round_b64_0.
      * by apply round_b64_int.
      * by apply Qclt_le_weak.
      * rewrite <- (Qcplus_0_l (Qc_of_Z 90)) at 3.
        by apply Qcplus_le_compat.
    + exists (Qc_of_Z 90 * d)%Qc. split; [done|]. split.
      * destruct (decide (Qc_of_Z 90 * d = 0)%Qc) as [->|Hne]; [done|].
        exfalso. apply Hc. split; [done|].
        rewrite bool_decide_eq_true_2, bool_decide_eq_false_2; [done|done|].
        by apply Qcle_lt_or_eq in Hr0 as [?|?].
      * eapply Qcle_trans; [exact Hr0|by apply Qclt_le_weak].
Qed.

Lemma bin_index_closed_range bins x :
  0 < bins → (0 <= x)%Qc → (x <= Qc_of_Z 90)%Qc →
  ∃ k, bin_index bins (Fin x) = Some k ∧ 0 <= k < bins.
Proof.
  intros Hbins H0 H90.
  apply Qcle_lt_or_eq in H90 as [H90| ->];
    [by apply bin_index_in_range|].
  exists (bins - 1). split; [|lia].
  cbn [bin_index]. rewrite !bool_decide_eq_true_2 by done.
  cbn [andb]. by rewrite decide_True.
Qed.

Section OrientationB64Facts.
Context {polygon : Type}.
Context (mbr_exterior_xy : polygon -> option (list float64 * list float64)).
Context (arctan2 : float64 -> float64 -> float64).
Context (degrees : float64 -> float64).

Lemma get_orientation_b64_Some p a :
  get_orientation_b64 mbr_exterior_xy arctan2 degrees p = Some a →
  ∃ t, a = b64_mod t (b64_of_int 90).
Proof.
  unfold get_orientation_b64.
  destruct (mbr_exterior_xy p) as [[x y]|]; [|done].
  cbn [mbind option_bind].
  destruct (y !! 1%nat); [|done]. destruct (y !! 0%nat); [|done].
  destruct (x !! 1%nat); [|done]. destruct (x !! 0%nat); [|done].
  cbn [mbind option_bind]. intros [= <-]. by eexists.
Qed.

(** X13. In binary64, an orientation [get_orientation] returns is [NaN]
    or a finite angle from 0 to 90, both included, and a finite one falls
    in a bin of every histogram over (0, 90) with a positive number of
    bins.  The bound 90 is reached: for a tiny negative edge angle the
    addition of 90 rounds to 90.0. *)
Theorem get_orientation_b64_range :
  (∀ p a,
      get_orientation_b64 mbr_exterior_xy arctan2 degrees p = Some a →
      a = NaN
      ∨ ∃ x, a = Fin x ∧ (0 <= x)%Qc ∧ (x <= Qc_of_Z 90)%Qc
             ∧ ∀ bins, 0 < bins →
                 ∃ k, bin_index bins a = Some k ∧ 0 <= k < bins)
  ∧ b64_mod (Fin (Q2Qc (-57 # 10 ^ 20))) (b64_of_int 90) = f_of_int 90.
Proof.
  split.
  - intros p a [t ->]%get_orientation_b64_Some.
    destruct t as [x| | |]; [right|by left..].
    destruct (b64_mod_90_range x) as (g & -> & H0 & H90).
    exists g. repeat (split; [done|]). intros bins Hbins.
    by apply bin_index_closed_range.
  - vm_compute. apply (f_equal Fin), Qc_is_canon. reflexivity.
Qed.
End OrientationB64Facts.

Lemma get_orientation_b64_range_witness :
  (f_zero = NaN
   ∨ ∃ x, f_zero = Fin x ∧ (0 <= x)%Qc ∧ (x <= Qc_of_Z 90)%Qc
          ∧ ∀ bins, 0 < bins →
              ∃ k, bin_index bins f_zero = Some k ∧ 0 <= k < bins)
  ∧ b64_mod (Fin (Q2Qc (-57 # 10 ^ 20))) (b64_of_int 90) = f_of_int 90.
Proof.
  destruct (get_orientation_b64_range rect_mbr rect_arctan2 id)
    as [Hrange H90].
  split; [|exact H90].
  apply (Hrange (Rectangle 0 0 3 4)).
  vm_compute. apply (f_equal Some), (f_equal Fin), Qc_is_canon. reflexivity.
Defined.

(** ** The further properties on the concrete instance *)

Lemma add_geo_features_idempotent_witness :
  ∃ h1,
    add_geo_features rectangle rect_area 0%nat scenario_heap
    = Some (0%nat, h1)
    ∧ add_geo_features rectangle rect_area 0%nat h1 = Some (0%nat, h1).
Proof.
  exact (add_geo_features_idempotent rect_area scenario_heap 0%nat _
           scenario_heap_lookup).
Defined.

Lemma scenario_boundaries_NoDup : NoDup (boundary_id <$> scenario_boundaries).
Proof.
  apply (bool_decide_unpack (NoDup (boundary_id <$> scenario_boundaries))).
  by vm_compute.
Qed.

Lemma load_lot_data_one_row_per_lot_witness :
  ∃ l table,
    load_lot_data rectangle rect_area id
      (Some scenario_lots) (Some scenario_boundaries) ∅
    = Some (Some l, <[l := table]> ∅)
    ∧ city <$> table = ["A"; "C"]
    ∧ length table = 2%nat.
Proof.
  exact (load_lot_data_one_row_per_lot rect_area id scenario_lots
           scenario_boundaries ∅ scenario_boundaries_NoDup).
Defined.

Lemma main_feature_columns_witness :
  ∃ out h',
    rect_main (Some scenario_lots) (Some scenario_boundaries) ∅
    = Some (out, h')
    ∧ ∀ r, r ∈ out →
        features r !! "avg_lot_area"
        = Some (np_mean (rect_area <$> constituent_polygons (geometry_col r))
                / f_of_int 1000)%f64
        ∧ features r !! "gini_coef"
          = Some (gini_coefficient
                    (rect_area <$> constituent_polygons (geometry_col r)))
        ∧ features r !! "orientation_entropy"
          = calculate_orientation_entropy rectangle rect_mbr rect_arctan2 id
              rect_log (constituent_polygons (geometry_col r)) 36.
Proof.
  destruct (main_returns rect_area id rect_mbr rect_arctan2 id rect_log
              scenario_lots scenario_boundaries ∅
              rect_get_orientation_is_Some) as [out Hrun].
  eexists out, _. split; [exact Hrun|].
  exact (main_feature_columns rect_area id rect_mbr rect_arctan2 id rect_log
           _ _ _ _ _ Hrun).
Defined.

Lemma missing_file_behaviour_witness :
  load_lot_data rectangle rect_area id None (Some scenario_boundaries) ∅
  = Some (None, ∅)
  ∧ rect_main None (Some scenario_boundaries) ∅ = None.
Proof.
  apply (missing_file_behaviour rect_area id rect_mbr rect_arctan2 id
           rect_log None (Some scenario_boundaries) ∅).
  by left.
Defined.

Lemma main_unmatched_region_is_NaN_witness :
  ∃ out h',
    rect_main (Some scenario_lots) (Some scenario_boundaries) ∅
    = Some (out, h')
    ∧ ∀ r, r ∈ out → city r = "C" →
        boundary_area r = NaN
        ∧ features r !! "pct_lot_area" = Some NaN
        ∧ features r !! "lots_per_sq_km" = Some NaN.
Proof.
  destruct (main_returns rect_area id rect_mbr rect_arctan2 id rect_log
              scenario_lots scenario_boundaries ∅
              rect_get_orientation_is_Some) as [out Hrun].
  eexists out, _. split; [exact Hrun|]. intros r Hr Hc.
  apply (main_unmatched_region_is_NaN rect_area id rect_mbr rect_arctan2 id
           rect_log _ _ _ _ _ Hrun r Hr).
  rewrite Hc. by intros [|[|?%not_elem_of_nil]%elem_of_cons]%elem_of_cons.
Defined.

Lemma main_frame_and_shape_witness :
  ∃ out h' l,
    rect_main (Some scenario_lots) (Some scenario_boundaries) ∅
    = Some (out, h')
    ∧ h' = <[l := out]> ∅
    ∧ ∀ r, r ∈ out →
        dom (features r)
        = ({["pct_lot_area"; "lots_per_sq_km"; "avg_lot_area";
             "gini_coef"; "orientation_entropy"]} : gset string).
Proof.
  destruct (main_returns rect_area id rect_mbr rect_arctan2 id rect_log
              scenario_lots scenario_boundaries ∅
              rect_get_orientation_is_Some) as [out Hrun].
  destruct (main_frame_and_shape rect_area id rect_mbr rect_arctan2 id
              rect_log _ _ _ _ _ Hrun) as (l & table & _ & _ & Hh & Hrows).
  eexists out, _, l. split; [exact Hrun|]. split; [exact Hh|].
  intros r' Hr'.
  destruct (Forall2_elem_of_r _ _ _ _ Hrows Hr') as (r & _ & H).
  apply H.
Defined.

(** * GeoJSON flattening *)

(** Induction on JSON values, with the hypothesis for every item of an array
    and every member of an object. *)
Lemma json_ind (P : json → Prop) :
  P JNull → (∀ b, P (JBool b)) → (∀ n, P (JInt n)) → (∀ x, P (JFloat x)) →
  (∀ s, P (JStr s)) →
  (∀ items, Forall P items → P (JArr items)) →
  (∀ members, Forall (fun kv => P kv.2) members → P (JObj members)) →
  ∀ v, P v.
Proof.
  intros HNull HBool HInt HFloat HStr HArr HObj.
  fix IH 1. intros [|b|n|x|s|items|members].
  - exact HNull.
  - apply HBool.
  - apply HInt.
  - apply HFloat.
  - apply HStr.
  - apply HArr. induction items as [|v items IHitems]; constructor.
    + apply IH.
    + exact IHitems.
  - apply HObj. induction members as [|[k v] members IHm]; constructor.
    + apply IH.
    + exact IHm.
Qed.

Lemma mapM_cons_Some {A B} (f : A → option B) x l k :
  mapM f (x :: l) = Some k ↔
  ∃ y k', f x = Some y ∧ mapM f l = Some k' ∧ k = y :: k'.
Proof.
  cbn. destruct (f x) as [y|]; cbn; [|split; [done|by intros (?&?&?&?)]].
  destruct (mapM f l) as [k'|]; cbn; [|split; [done|by intros (?&?&?&?&?)]].
  split.
  - intros [= <-]. by eexists _, _.
  - by intros (? & ? & [= <-] & [= <-] & ->).
Qed.

(** ** [flatten_coords] *)

Lemma flatten_coords_position first rest :
  is_number first = true →
  flatten_coords (JArr (first :: rest)) = Some (JArr (take 2 (first :: rest))).
Proof. intros H. cbn [flatten_coords]. by rewrite H. Qed.

Lemma flatten_coords_nested first rest :
  is_number first = false →
  flatten_coords (JArr (first :: rest))
  = JArr <$> mapM flatten_coords (first :: rest).
Proof. intros H. cbn [flatten_coords]. by rewrite H. Qed.

(** A result of [flatten_coords] is an array, never a number. *)
Lemma flatten_coords_not_number v v' :
  flatten_coords v = Some v' → is_number v' = false.
Proof.
  destruct v as [| | | | |[|first rest]|]; try done.
  cbn [flatten_coords]. destruct (is_number first); [by intros [= <-]|].
  destruct (mapM _ _); [|done]. by intros [= <-].
Qed.

Lemma flatten_coords_spec v v' :
  flatten_coords v = Some v' →
  flatten_coords v' = Some v'
  ∧ positions v' = take 2 <$> positions v
  ∧ skeleton v' = skeleton v
  ∧ Forall (fun p => (length p <= 2)%nat) (positions v').
Proof.
  revert v'. induction v as [| | | | |items IH|] using json_ind; try done.
  intros v'. destruct items as [|first rest]; [done|].
  destruct (is_number first) eqn:Hnum.
  - rewrite flatten_coords_position by done. intros [= <-].
    cbn [take]. rewrite flatten_coords_position by done.
    cbn [positions skeleton take]. rewrite Hnum. cbn [fmap list_fmap take].
    repeat split; try done.
    + by destruct rest.
    + apply Forall_singleton. cbn [length]. rewrite length_take. lia.
  - rewrite flatten_coords_nested by done.
    destruct (mapM flatten_coords (first :: rest)) as [items'|] eqn:E;
      [|done].
    intros [= <-].
    assert (Hall : Forall2 (fun c c' =>
                      flatten_coords c' = Some c'
                      ∧ positions c' = take 2 <$> positions c
                      ∧ skeleton c' = skeleton c
                      ∧ Forall (fun p => (length p <= 2)%nat) (positions c'))
                     (first :: rest) items').
    { apply mapM_Some_1 in E. clear Hnum.
      induction E as [|c c' cs cs' Hc _ IHE]; [constructor|].
      apply Forall_cons in IH as [IHc IHcs]. constructor; auto. }
    destruct items' as [|first' rest']; [by apply Forall2_length in Hall|].
    assert (Hnum' : is_number first' = false).
    { apply mapM_cons_Some in E as (y & k' & Hy & _ & [= -> ->]).
      by eapply flatten_coords_not_number. }
    rewrite flatten_coords_nested by done.
    cbn [positions skeleton]. rewrite Hnum, Hnum'.
    clear Hnum Hnum' E IH.
    generalize dependent (first' :: rest'). generalize (first :: rest).
    clear. intros l l' Hall. repeat split.
    + assert (mapM flatten_coords l' = Some l') as ->; [|done].
      apply mapM_Some_2.
      induction Hall as [|c c' cs cs' (Hc & _) _ IH]; constructor; auto.
    + induction Hall as [|c c' cs cs' (_ & Hc & _) _ IH]; [done|].
      change (positions c' ++ mjoin (positions <$> cs')
              = take 2 <$> (positions c ++ mjoin (positions <$> cs))).
      by rewrite fmap_app, Hc, IH.
    + f_equal. induction Hall as [|c c' cs cs' (_ & _ & Hc & _) _ IH]; [done|].
      cbn [fmap list_fmap]. by rewrite Hc, IH.
    + induction Hall as [|c c' cs cs' (_ & _ & _ & Hc) _ IH]; [constructor|].
      change (Forall (fun p => (length p <= 2)%nat)
                (positions c' ++ mjoin (positions <$> cs'))).
      by apply Forall_app.
Qed.

Lemma flatten_coords_is_Some v :
  is_Some (flatten_coords v) ↔ coords_ok v = true.
Proof.
  induction v as [| | | | |items IH|] using json_ind;
    try (split; [by intros [? ?]|done]).
  destruct items as [|first rest]; [split; [by intros [? ?]|done]|].
  cbn [flatten_coords coords_ok].
  destruct (is_number first); [split; [done|by eexists]|].
  cbn [orb]. rewrite fmap_is_Some, mapM_is_Some, forallb_forall.
  rewrite !Forall_forall in *. split; intros H c Hc.
  - apply list_elem_of_In in Hc. apply IH; [done|]. by apply H.
  - apply IH; [done|]. apply H. by apply list_elem_of_In.
Qed.

(** ** Members of an object *)

Lemma update_member_Some key f members members' :
  update_member key f members = Some members' →
  ∃ v v',
    get_member key members = Some v ∧ f v = Some v'
    ∧ get_member key members' = Some v'
    ∧ members'.*1 = members.*1
    ∧ ∀ k, k ≠ key → get_member k members' = get_member k members.
Proof.
  revert members'. induction members as [|[k v] members IH]; [done|].
  intros members'. cbn [update_member get_member].
  destruct (decide (k = key)) as [->|Hk].
  - destruct (f v) as [v'|] eqn:Hf; [|done]. cbn. intros [= <-].
    exists v, v'. cbn [get_member]. rewrite decide_True by done.
    repeat (split; [done|]). intros k Hne. by rewrite !decide_False.
  - fold (update_member key f).
    destruct (update_member key f members) as [rest'|] eqn:E; [|done].
    cbn. intros [= <-].
    destruct (IH _ eq_refl) as (v0 & v0' & Hg & Hf & Hg' & Hkeys & Hother).
    exists v0, v0'. cbn [get_member]. rewrite decide_False by done.
    repeat (split; [done|]). split; [cbn; by rewrite Hkeys|].
    intros k' Hne. case_decide; [done|]. by apply Hother.
Qed.

Lemma update_member_get key f members v :
  get_member key members = Some v →
  update_member key f members
  = (v' ← f v; update_member key (fun _ => Some v') members).
Proof.
  induction members as [|[k w] members IH]; [done|].
  cbn [update_member get_member].
  destruct (decide (k = key)) as [->|Hk].
  - intros [= ->]. destruct (f v) as [v'|]; [|done].
    cbn [mbind option_bind update_member]. by rewrite ?decide_True.
  - fold (update_member key f). intros Hg. rewrite (IH Hg).
    destruct (f v) as [v'|]; [|done].
    cbn [mbind option_bind update_member]. by rewrite ?decide_False.
Qed.

Lemma update_member_missing key f members :
  get_member key members = None → update_member key f members = None.
Proof.
  induction members as [|[k w] members IH]; [done|].
  cbn [update_member get_member]. case_decide; [done|].
  fold (update_member key f). intros Hg. by rewrite (IH Hg).
Qed.

(** Writing back the value a member already has changes nothing. *)
Lemma update_member_same key members v :
  get_member key members = Some v →
  update_member key (fun _ => Some v) members = Some members.
Proof.
  induction members as [|[k w] members IH]; [done|].
  cbn [update_member get_member]. case_decide.
  - by intros [= ->].
  - fold (update_member key (fun _ : json => Some v)).
    intros Hg. by rewrite (IH Hg).
Qed.

(** Updating a member a second time, with a function that leaves the first
    result as it is, changes nothing. *)
Lemma update_member_again key f g members members' :
  update_member key f members = Some members' →
  (∀ v v', get_member key members = Some v → f v = Some v' →
           g v' = Some v') →
  update_member key g members' = Some members'.
Proof.
  intros Hup Hg.
  destruct (update_member_Some _ _ _ _ Hup) as (v & v' & Hv & Hf & Hv' & _).
  rewrite (update_member_get _ _ _ _ Hv'), (Hg v v' Hv Hf). cbn.
  by apply update_member_same.
Qed.

(** ** [flatten_geojson] *)

Lemma flatten_geojson_unfold members :
  flatten_geojson (JObj members)
  = (type ← get_member "type" members;
     if is_geometry_type type then
       JObj <$> update_member "coordinates" flatten_coords members
     else if is_str "Feature" type then
       JObj <$> update_member "geometry" flatten_geojson members
     else if is_str "FeatureCollection" type then
       JObj <$> update_member "features" flatten_features members
     else Some (JObj members)).
Proof. reflexivity. Qed.

Lemma get_member_elem_of key members v :
  get_member key members = Some v → (key, v) ∈ members.
Proof.
  induction members as [|[k w] members IH]; [done|].
  cbn [get_member]. case_decide as Hk.
  - intros [= ->]. subst. left.
  - intros Hg. right. by apply IH.
Qed.

Lemma flatten_coords_again v v' :
  flatten_coords v = Some v' → flatten_coords v' = Some v'.
Proof. intros H. by apply flatten_coords_spec in H as [? _]. Qed.

(** Every result of [flatten_geojson] is left as it is by a second call;
    the second component carries the statement through arrays. *)
Lemma flatten_geojson_again_aux v :
  (∀ v', flatten_geojson v = Some v' → flatten_geojson v' = Some v')
  ∧ (∀ items, v = JArr items →
       Forall (fun c => ∀ c', flatten_geojson c = Some c' →
                              flatten_geojson c' = Some c') items).
Proof.
  induction v as [| | | | |items IH|members IH] using json_ind;
    try (split; [done|by intros ? [=]]).
  - split; [done|]. intros ? [= <-].
    eapply Forall_impl; [exact IH|]. by intros c [Hc _].
  - split; [|by intros ? [=]]. intros v'. rewrite flatten_geojson_unfold.
    destruct (get_member "type" members) as [type|] eqn:Htype; [|done].
    cbn [mbind option_bind].
    assert (Hkeep : ∀ key f members',
               key ≠ "type" → update_member key f members = Some members' →
               get_member "type" members' = Some type).
    { intros key f members' Hne Hup.
      destruct (update_member_Some _ _ _ _ Hup) as (_ & _ & _ & _ & _ & _ & H).
      rewrite H; done. }
    destruct (is_geometry_type type) eqn:Hgeo;
      [|destruct (is_str "Feature" type) eqn:Hfeat;
        [|destruct (is_str "FeatureCollection" type) eqn:Hcoll]].
    + destruct (update_member _ _ members) as [members'|] eqn:Hup; [|done].
      intros [= <-]. rewrite flatten_geojson_unfold.
      rewrite (Hkeep "coordinates" _ _ ltac:(done) Hup). cbn [mbind option_bind].
      rewrite Hgeo.
      rewrite (update_member_again _ _ flatten_coords _ _ Hup); [done|].
      intros c c' _. apply flatten_coords_again.
    + destruct (update_member _ _ members) as [members'|] eqn:Hup; [|done].
      intros [= <-]. rewrite flatten_geojson_unfold.
      rewrite (Hkeep "geometry" _ _ ltac:(done) Hup). cbn [mbind option_bind].
      rewrite Hgeo, Hfeat.
      rewrite (update_member_again _ _ flatten_geojson _ _ Hup); [done|].
      intros c c' Hc. rewrite Forall_forall in IH.
      apply (IH _ (get_member_elem_of _ _ _ Hc)).
    + destruct (update_member _ _ members) as [members'|] eqn:Hup; [|done].
      intros [= <-]. rewrite flatten_geojson_unfold.
      rewrite (Hkeep "features" _ _ ltac:(done) Hup). cbn [mbind option_bind].
      rewrite Hgeo, Hfeat, Hcoll.
      rewrite (update_member_again _ _ flatten_features _ _ Hup); [done|].
      intros c c' Hc. rewrite Forall_forall in IH.
      destruct (IH _ (get_member_elem_of _ _ _ Hc)) as [_ Hitems].
      destruct c as [| | | |s|items|ms]; try done; cbn [flatten_features].
      * destruct s; [intros [= <-]; reflexivity|intros [=]].
      * destruct (mapM flatten_geojson items) as [items'|] eqn:E; [|done].
        intros [= <-]. cbn [flatten_features].
        assert (mapM flatten_geojson items' = Some items') as ->; [|done].
        apply mapM_Some_2. apply mapM_Some_1 in E.
        specialize (Hitems items eq_refl). cbn in Hitems.
        revert Hitems. clear -E.
        induction E as [|x y l k Hxy _ IHE]; intros Hitems; [constructor|].
        apply Forall_cons in Hitems as [Hx Hl].
        constructor; [by apply Hx | by apply IHE].
      * destruct ms; [intros [= <-]; reflexivity|intros [=]].
    + intros [= <-]. rewrite flatten_geojson_unfold, Htype.
      cbn [mbind option_bind]. by rewrite Hgeo, Hfeat, Hcoll.
Qed.

(** ** The properties of the flattening *)

Lemma is_str_refl s : is_str s (JStr s) = true.
Proof. by apply bool_decide_eq_true_2. Qed.

Lemma is_geometry_type_Feature : is_geometry_type (JStr "Feature") = false.
Proof. by vm_compute. Qed.

Lemma is_geometry_type_FeatureCollection :
  is_geometry_type (JStr "FeatureCollection") = false.
Proof. by vm_compute. Qed.

Lemma is_str_Feature_FeatureCollection :
  is_str "Feature" (JStr "FeatureCollection") = false.
Proof. by vm_compute. Qed.

(** X15. [flatten_coords] keeps the nesting of a coordinate array and the
    order of its positions, and cuts every position down to its first two
    entries. *)
Theorem flatten_coords_keeps_first_two (coords coords' : json) :
  flatten_coords coords = Some coords' →
  positions coords' = take 2 <$> positions coords
  ∧ skeleton coords' = skeleton coords.
Proof. intros H. by apply flatten_coords_spec in H as (_ & ? & ? & _). Qed.

Lemma flatten_coords_keeps_first_two_witness :
  positions (JArr [JArr [JInt 0; JInt 0]; JArr [JInt 4; JInt 0];
                   JArr [JInt 4; JInt 3]; JArr [JInt 0; JInt 0]])
  = take 2 <$> positions sample_ring
  ∧ skeleton (JArr [JArr [JInt 0; JInt 0]; JArr [JInt 4; JInt 0];
                    JArr [JInt 4; JInt 3]; JArr [JInt 0; JInt 0]])
    = skeleton sample_ring.
Proof. apply flatten_coords_keeps_first_two. reflexivity. Defined.

(** X16. A result of [flatten_coords] has no position of more than two
    entries, and flattening it again returns it unchanged. *)
Theorem flatten_coords_idempotent (coords coords' : json) :
  flatten_coords coords = Some coords' →
  flatten_coords coords' = Some coords'
  ∧ Forall (fun p => (length p <= 2)%nat) (positions coords').
Proof. intros H. by apply flatten_coords_spec in H as (? & _ & _ & ?). Qed.

Lemma flatten_coords_idempotent_witness :
  ∃ coords',
    flatten_coords (JArr [sample_ring]) = Some coords'
    ∧ flatten_coords coords' = Some coords'
    ∧ Forall (fun p => (length p <= 2)%nat) (positions coords').
Proof.
  eexists. split; [reflexivity|].
  apply (flatten_coords_idempotent (JArr [sample_ring])). reflexivity.
Defined.

(** X17. [flatten_coords] returns a value exactly on the arrays in which
    every array it reaches is not empty and everything below an array that
    is not a position is an array; on anything else (an empty ring, a bare
    number or string among the rings, a value that is not a list) it
    raises. *)
Theorem flatten_coords_returns (coords : json) :
  is_Some (flatten_coords coords) ↔ coords_ok coords = true.
Proof. apply flatten_coords_is_Some. Qed.

(** X18. Flattening a document [flatten_geojson] has already flattened
    returns it unchanged. *)
Theorem flatten_geojson_idempotent (geojson geojson' : json) :
  flatten_geojson geojson = Some geojson' →
  flatten_geojson geojson' = Some geojson'.
Proof. apply flatten_geojson_again_aux. Qed.

Lemma flatten_geojson_idempotent_witness :
  ∃ geojson',
    flatten_geojson (JObj sample_collection) = Some geojson'
    ∧ flatten_geojson geojson' = Some geojson'.
Proof.
  eexists. split; [reflexivity|].
  apply (flatten_geojson_idempotent (JObj sample_collection)). reflexivity.
Defined.

(** X19. On a geometry object (type Polygon, MultiPolygon, LineString,
    MultiLineString, Point or MultiPoint) a successful [flatten_geojson]
    replaces the coordinates by their flattening and leaves the keys, their
    order and every other member as they are. *)
Theorem flatten_geojson_geometry members type geojson' :
  get_member "type" members = Some type →
  is_geometry_type type = true →
  flatten_geojson (JObj members) = Some geojson' →
  ∃ members' coords coords',
    geojson' = JObj members'
    ∧ get_member "coordinates" members = Some coords
    ∧ flatten_coords coords = Some coords'
    ∧ get_member "coordinates" members' = Some coords'
    ∧ member_keys members' = member_keys members
    ∧ ∀ key, key ≠ "coordinates" →
             get_member key members' = get_member key members.
Proof.
  intros Htype Hgeo. rewrite flatten_geojson_unfold, Htype.
  cbn [mbind option_bind]. rewrite Hgeo.
  destruct (update_member _ _ members) as [members'|] eqn:Hup; [|done].
  intros [= <-].
  destruct (update_member_Some _ _ _ _ Hup) as (c & c' & ? & ? & ? & ? & ?).
  by exists members', c, c'.
Qed.

Lemma flatten_geojson_geometry_witness :
  ∃ members' coords coords',
    flatten_geojson (JObj sample_polygon) = Some (JObj members')
    ∧ get_member "coordinates" sample_polygon = Some coords
    ∧ flatten_coords coords = Some coords'
    ∧ get_member "coordinates" members' = Some coords'
    ∧ member_keys members' = member_keys sample_polygon.
Proof.
  destruct (flatten_geojson_geometry sample_polygon (JStr "Polygon") _
              eq_refl eq_refl eq_refl)
    as (members' & c & c' & E & H1 & H2 & H3 & H4 & _).
  exists members', c, c'. by rewrite <- E.
Defined.

(** X20. On a Feature a successful [flatten_geojson] replaces the geometry
    by its own flattening and leaves the keys, their order and every other
    member as they are. *)
Theorem flatten_geojson_feature members geojson' :
  get_member "type" members = Some (JStr "Feature") →
  flatten_geojson (JObj members) = Some geojson' →
  ∃ members' geometry geometry',
    geojson' = JObj members'
    ∧ get_member "geometry" members = Some geometry
    ∧ flatten_geojson geometry = Some geometry'
    ∧ get_member "geometry" members' = Some geometry'
    ∧ member_keys members' = member_keys members
    ∧ ∀ key, key ≠ "geometry" →
             get_member key members' = get_member key members.
Proof.
  intros Htype. rewrite flatten_geojson_unfold, Htype.
  cbn [mbind option_bind]. rewrite is_geometry_type_Feature, is_str_refl.
  destruct (update_member _ _ members) as [members'|] eqn:Hup; [|done].
  intros [= <-].
  destruct (update_member_Some _ _ _ _ Hup) as (c & c' & ? & ? & ? & ? & ?).
  by exists members', c, c'.
Qed.

Lemma flatten_geojson_feature_witness :
  ∃ members' geometry geometry',
    flatten_geojson (JObj sample_feature) = Some (JObj members')
    ∧ get_member "geometry" sample_feature = Some geometry
    ∧ flatten_geojson geometry = Some geometry'
    ∧ get_member "geometry" members' = Some geometry'
    ∧ get_member "properties" members'
      = get_member "properties" sample_feature.
Proof.
  destruct (flatten_geojson_feature sample_feature _ eq_refl eq_refl)
    as (members' & g & g' & E & H1 & H2 & H3 & _ & H5).
  exists members', g, g'. rewrite <- E. repeat (split; [done|]).
  by apply H5.
Defined.

(** X21. On a FeatureCollection whose features are a list, a successful
    [flatten_geojson] flattens every feature, keeping their number and
    order, and leaves the keys, their order and every other member as they
    are. *)
Theorem flatten_geojson_feature_collection members items geojson' :
  get_member "type" members = Some (JStr "FeatureCollection") →
  get_member "features" members = Some (JArr items) →
  flatten_geojson (JObj members) = Some geojson' →
  ∃ members' items',
    geojson' = JObj members'
    ∧ get_member "features" members' = Some (JArr items')
    ∧ Forall2 (fun feature feature' =>
                 flatten_geojson feature = Some feature') items items'
    ∧ member_keys members' = member_keys members
    ∧ ∀ key, key ≠ "features" →
             get_member key members' = get_member key members.
Proof.
  intros Htype Hfeatures. rewrite flatten_geojson_unfold, Htype.
  cbn [mbind option_bind].
  rewrite is_geometry_type_FeatureCollection, is_str_Feature_FeatureCollection,
    is_str_refl.
  destruct (update_member _ _ members) as [members'|] eqn:Hup; [|done].
  intros [= <-].
  destruct (update_member_Some _ _ _ _ Hup)
    as (c & c' & Hc & Hf & Hc' & Hkeys & Hother).
  rewrite Hfeatures in Hc. injection Hc as <-. cbn [flatten_features] in Hf.
  destruct (mapM flatten_geojson items) as [items'|] eqn:E; [|done].
  injection Hf as <-. exists members', items'.
  repeat (split; [done|]). split; [by apply mapM_Some_1|done].
Qed.

Lemma flatten_geojson_feature_collection_witness :
  ∃ members' items',
    flatten_geojson (JObj sample_collection) = Some (JObj members')
    ∧ get_member "features" members' = Some (JArr items')
    ∧ length items' = 2%nat.
Proof.
  destruct (flatten_geojson_feature_collection sample_collection _ _
              eq_refl eq_refl eq_refl)
    as (members' & items' & E & H1 & H2 & _).
  exists members', items'. rewrite <- E. repeat (split; [done|]).
  by rewrite <- (Forall2_length _ _ _ H2).
Defined.

(** X22. [flatten_geojson] raises on a value that is not an object, on an
    object without a type, on a Feature whose geometry is missing or
    [null], and on a geometry object whose coordinates [flatten_coords]
    does not accept. *)
Theorem flatten_geojson_raises :
  (∀ geojson, (∀ members, geojson ≠ JObj members) →
              flatten_geojson geojson = None)
  ∧ (∀ members, get_member "type" members = None →
                flatten_geojson (JObj members) = None)
  ∧ (∀ members,
        get_member "type" members = Some (JStr "Feature") →
        get_member "geometry" members = None
        ∨ get_member "geometry" members = Some JNull →
        flatten_geojson (JObj members) = None)
  ∧ (∀ members type coords,
        get_member "type" members = Some type →
        is_geometry_type type = true →
        get_member "coordinates" members = Some coords →
        coords_ok coords = false →
        flatten_geojson (JObj members) = None).
Proof.
  repeat split.
  - intros [| | | | | |members] H; try done. by destruct (H members).
  - intros members Htype. by rewrite flatten_geojson_unfold, Htype.
  - intros members Htype Hgeom. rewrite flatten_geojson_unfold, Htype.
    cbn [mbind option_bind]. rewrite is_geometry_type_Feature, is_str_refl.
    destruct Hgeom as [Hgeom|Hgeom].
    + by rewrite update_member_missing.
    + by rewrite (update_member_get _ _ _ _ Hgeom).
  - intros members type coords Htype Hgeo Hcoords Hbad.
    rewrite flatten_geojson_unfold, Htype. cbn [mbind option_bind].
    rewrite Hgeo, (update_member_get _ _ _ _ Hcoords).
    destruct (flatten_coords coords) eqn:E; [|done].
    assert (coords_ok coords = true) by (apply flatten_coords_is_Some; eauto).
    congruence.
Qed.

Lemma flatten_geojson_raises_witness :
  flatten_geojson (JArr []) = None
  ∧ flatten_geojson (JObj [("geometry", JNull)]) = None
  ∧ flatten_geojson (JObj [("type", JStr "Feature"); ("geometry", JNull)])
    = None
  ∧ flatten_geojson
      (JObj [("type", JStr "Polygon"); ("coordinates", JArr [JArr []])])
    = None.
Proof.
  destruct flatten_geojson_raises as (H1 & H2 & H3 & H4).
  split; [by apply H1|]. split; [by apply H2|]. split.
  - apply H3; [done|by right].
  - by apply (H4 _ (JStr "Polygon") (JArr [JArr []])).
Defined.

(** X23. A geometry of a type [flatten_geojson] does not list (a
    GeometryCollection, say) is not flattened: a Feature carrying one is
    returned unchanged, whatever the dimension of the coordinates inside. *)
Theorem flatten_geojson_skips_other_geometries members gmembers gtype :
  get_member "type" members = Some (JStr "Feature") →
  get_member "geometry" members = Some (JObj gmembers) →
  get_member "type" gmembers = Some gtype →
  is_geometry_type gtype = false →
  is_str "Feature" gtype = false →
  is_str "FeatureCollection" gtype = false →
  flatten_geojson (JObj members) = Some (JObj members).
Proof.
  intros Htype Hgeom Hgtype H1 H2 H3.
  rewrite flatten_geojson_unfold, Htype.
  cbn [mbind option_bind]. rewrite is_geometry_type_Feature, is_str_refl.
  rewrite (update_member_get _ _ _ _ Hgeom).
  rewrite flatten_geojson_unfold, Hgtype. cbn [mbind option_bind].
  rewrite H1, H2, H3. cbn [mbind option_bind].
  by rewrite update_member_same.
Qed.

Lemma flatten_geojson_skips_other_geometries_witness :
  flatten_geojson (JObj sample_other_feature)
  = Some (JObj sample_other_feature).
Proof.
  by apply (flatten_geojson_skips_other_geometries _ sample_other_geometry
              (JStr "GeometryCollection")).
Defined.

(** X24. Whatever the document, a successful [flatten_geojson] returns an
    object with the same keys in the same order and the same type. *)
Theorem flatten_geojson_keeps_keys members geojson' :
  flatten_geojson (JObj members) = Some geojson' →
  ∃ members',
    geojson' = JObj members'
    ∧ member_keys members' = member_keys members
    ∧ get_member "type" members' = get_member "type" members.
Proof.
  rewrite flatten_geojson_unfold.
  destruct (get_member "type" members) as [type|] eqn:Htype; [|done].
  cbn [mbind option_bind].
  assert (Hup : ∀ key f,
            key ≠ "type" →
            JObj <$> update_member key f members = Some geojson' →
            ∃ members',
              geojson' = JObj members'
              ∧ member_keys members' = member_keys members
              ∧ get_member "type" members' = Some type).
  { intros key f Hne.
    destruct (update_member key f members) as [members'|] eqn:E; [|done].
    intros [= <-]. exists members'.
    destruct (update_member_Some _ _ _ _ E) as (_ & _ & _ & _ & _ & Hk & Ho).
    split; [done|]. split; [done|]. by rewrite Ho. }
  destruct (is_geometry_type type); [by apply Hup|].
  destruct (is_str "Feature" type); [by apply Hup|].
  destruct (is_str "FeatureCollection" type); [by apply Hup|].
  intros [= <-]. by exists members.
Qed.

Lemma flatten_geojson_keeps_keys_witness :
  ∃ members',
    flatten_geojson (JObj sample_collection) = Some (JObj members')
    ∧ member_keys members' = member_keys sample_collection
    ∧ get_member "type" members' = get_member "type" sample_collection.
Proof.
  destruct (flatten_geojson_keeps_keys sample_collection _ eq_refl)
    as (members' & E & H1 & H2).
  exists members'. by rewrite <- E.
Defined.
